(** * AISaga: the AI command interpreter and the AI session supervisor

    A shallow embedding of [src/app/sagas/AISaga.ts].

    - [handleCommands] keeps four closure variables ([fire],
      [nextDirection], [forwardLength], [startPos]) that its main loop and
      the callbacks handed to [directionController] and [fireController]
      share; they are modelled as one record, [Closure.t], threaded through
      a state-and-exception monad.  The note channel is the FIFO list of
      the notes put so far.
    - Every [yield select(...)] reads the redux store; the store the saga
      sees at that moment is an argument of the step.
    - [AIMasterSaga] keeps [taskMap] (a JS object used as a dictionary) and
      [nextAIPlayerIndex]; they live in [Master.t] together with the store
      and the set of tasks spawned and cancelled so far.

    JS numbers are binary64 floats: positions, lengths, cooldowns and limits
    are [float], with the primitive operations [PrimFloat.sub],
    [PrimFloat.abs], [PrimFloat.ltb], [PrimFloat.leb] and [PrimFloat.eqb]
    for [-], [Math.abs], [<], [<=] and [===].  Identifiers and counts are
    natural numbers. *)

From Stdlib Require Import Floats.
From stdpp Require Import gmap strings list fin_maps pretty.

(** ** Numbers *)

(** Equality of floats is decidable (one NaN, [+0] and [-0] apart). *)
#[global] Instance float_eq_dec : EqDecision float.
Proof.
  intros a b. destruct (PrimFloat.Leibniz.eqb a b) eqn:E.
  - left. apply FloatAxioms.Leibniz.eqb_spec. exact E.
  - right. intros H. apply FloatAxioms.Leibniz.eqb_spec in H. congruence.
Defined.

(** A count as a JS number; exact below [2^53]. *)
Definition number_of_nat (n : nat) : float :=
  PrimFloat.of_uint63 (Uint63.of_Z (Z.of_nat n)).

(** ** Data model *)

Module Direction.
Inductive t := up | down | left | right.
#[global] Instance eq_dec : EqDecision t.
Proof. solve_decision. Defined.
End Direction.

Inductive Axis := axis_x | axis_y.

(** Modelled from the spec: [getDirectionInfo] of [utils/common], which is
    not part of the sources at hand; only its [xy] field is used here, the
    coordinate "along the actor's facing axis": vertical facings move along
    [y], horizontal ones along [x]. *)
Definition getDirectionInfo (direction : Direction.t) : Axis :=
  match direction with
  | Direction.up | Direction.down => axis_y
  | Direction.left | Direction.right => axis_x
  end.

Definition TankId := nat.
Definition BulletId := nat.

Module TankRecord.
Record t := mk {
  tankId : TankId;
  x : float;
  y : float;
  side : string;
  level : string;
  hp : float;
  direction : Direction.t;
  bulletLimit : float;
  }.
#[global] Instance eq_dec : EqDecision t.
Proof. solve_decision. Defined.

(** [tank.get(xy)] *)
Definition get (tank : t) (xy : Axis) : float :=
  match xy with axis_x => x tank | axis_y => y tank end.
End TankRecord.

Module BulletRecord.
Record t := mk {
  bulletId : BulletId;
  tankId : TankId;
  }.
End BulletRecord.

Inductive Lives := Infinity | Finite (n : nat).

Module PlayerRecord.
Record t := mk {
  playerName : string;
  lives : Lives;
  side : string;
  }.
End PlayerRecord.

(** Modelled from the spec: the map record of the store ([reducers/]) is not
    part of the sources at hand.  The saga only forwards [map.toJS()], so the
    snapshot is an uninterpreted payload. *)
Record MapRecord := { map_payload : list nat }.

(** The part of the redux store this file reads.  [tanks] is the map of the
    store given as its entries in the order the map iterates them. *)
Module State.
Record t := mk {
  tanks : list (TankId * TankRecord.t);
  bullets : gmap BulletId BulletRecord.t;
  cooldowns : gmap TankId float;
  map : MapRecord;
  remainingEnemies : list string;   (* [game.remainingEnemies] *)
  }.
End State.

(** The commands a worker posts.  [type] and [query] are the strings the
    handler compares against; a field the command does not carry is read as
    its default. *)
Module AICommand.
Record t := mk {
  type : string;
  forwardLength : float;
  direction : option Direction.t;
  query : string;
  }.
End AICommand.

Definition forward_command (L : float) : AICommand.t :=
  AICommand.mk "forward" L None "".
Definition fire_command : AICommand.t :=
  AICommand.mk "fire" 0 None "".
Definition turn_command (d : Direction.t) : AICommand.t :=
  AICommand.mk "turn" 0 (Some d) "".
Definition query_command (q : string) : AICommand.t :=
  AICommand.mk "query" 0 None q.

Inductive QueryResult :=
  | my_tank_info (tank : option TankRecord.t)
  | map_info (map : MapRecord)
  | tanks_info (tanks : list TankRecord.t)
  | my_fire_info (bulletCount : nat) (canFire : bool)
                 (cooldown : option float) (bulletLimit : float).

Inductive Note :=
  | bullet_complete
  | reach
  | query_result (result : QueryResult).

#[global] Instance MapRecord_eq_dec : EqDecision MapRecord.
Proof. solve_decision. Defined.
#[global] Instance QueryResult_eq_dec : EqDecision QueryResult.
Proof. solve_decision. Defined.
#[global] Instance Note_eq_dec : EqDecision Note.
Proof. solve_decision. Defined.

(** What [getAIInput] hands to [directionController]; [None] is [null]. *)
Inductive Input :=
  | turn (direction : Direction.t)
  | forward (maxDistance : float).

(** ** A state and exception monad for the sagas *)

Inductive JsError :=
  | Error             (* [throw new Error()] *)
  | TypeError.        (* a property read or a call on [null]/[undefined] *)

Definition Eff (S A : Type) : Type := S → JsError + A * S.

Definition ret {S A} (a : A) : Eff S A := λ st, inr (a, st).
Definition bind {S A B} (m : Eff S A) (k : A → Eff S B) : Eff S B :=
  λ st, match m st with
        | inl e => inl e
        | inr (a, st') => k a st'
        end.
Definition throw {S A} (e : JsError) : Eff S A := λ _, inl e.
Definition gets {S A} (f : S → A) : Eff S A := λ st, inr (f st, st).
Definition modify {S} (f : S → S) : Eff S unit := λ st, inr (tt, f st).

Declare Scope eff_scope.
Delimit Scope eff_scope with eff.
Notation "'let*' x := m 'in' k" := (bind m (λ x, k))
  (at level 10, x name, m at level 100, k at level 200) : eff_scope.
Notation "m ;; k" := (bind m (λ _, k))
  (at level 100, k at level 200, right associativity) : eff_scope.

(** ** [handleCommands] *)

Module Closure.
Record t := mk {
  fire : bool;
  nextDirection : option Direction.t;
  forwardLength : float;
  startPos : float;
  noteChannel : list Note;   (* notes put so far, oldest first *)
  }.

(** The closure as [handleCommands] sets it up.  [startPos] is declared
    without a value; it is read only under [forwardLength > 0], which only
    the [forward] command establishes, writing [startPos] first. *)
Definition init : t := mk false None 0 0 [].

Definition set_fire (b : bool) (c : t) : t :=
  mk b (nextDirection c) (forwardLength c) (startPos c) (noteChannel c).
Definition set_nextDirection (d : option Direction.t) (c : t) : t :=
  mk (fire c) d (forwardLength c) (startPos c) (noteChannel c).
Definition set_forwardLength (l : float) (c : t) : t :=
  mk (fire c) (nextDirection c) l (startPos c) (noteChannel c).
Definition set_startPos (p : float) (c : t) : t :=
  mk (fire c) (nextDirection c) (forwardLength c) p (noteChannel c).
(** [noteChannel.put(note)] *)
Definition put (n : Note) (c : t) : t :=
  mk (fire c) (nextDirection c) (forwardLength c) (startPos c)
     (noteChannel c ++ [n]).
End Closure.


Section handleCommands.

(** [selectors.playerTank] lives in [utils/selectors], outside the sources at
    hand: the tank the player drives at the moment, [None] for [null]. *)
Variable playerTank : State.t → string → option TankRecord.t.
Variable playerName : string.

Open Scope eff_scope.

(** [cooldown <= 0]; [undefined <= 0] is [false]. *)
Definition cooldown_elapsed (cooldown : option float) : bool :=
  match cooldown with
  | Some c => PrimFloat.leb c 0
  | None => false
  end.

(** [bullets.filter(b => b.tankId === tank.tankId).count()] *)
Definition bulletCountOf (bullets : gmap BulletId BulletRecord.t)
    (tankId : TankId) : nat :=
  size (filter (λ kb, BulletRecord.tankId kb.2 = tankId) bullets).

(** The body of the main loop of [handleCommands] for one command taken from
    [commandChannel], run against the store [s] the selects read. *)
Definition handleCommand (s : State.t) (command : AICommand.t)
    : Eff Closure.t unit :=
  if decide (AICommand.type command = "forward") then
    match playerTank s playerName with
    | None => ret tt                                  (* [continue] *)
    | Some tank =>
      let xy := getDirectionInfo (TankRecord.direction tank) in
      modify (Closure.set_startPos (TankRecord.get tank xy)) ;;
      modify (Closure.set_forwardLength (AICommand.forwardLength command))
    end
  else if decide (AICommand.type command = "fire") then
    modify (Closure.set_fire true)
  else if decide (AICommand.type command = "turn") then
    modify (Closure.set_nextDirection (AICommand.direction command))
  else if decide (AICommand.type command = "query") then
    if decide (AICommand.query command = "my-tank") then
      let tank := playerTank s playerName in
      modify (Closure.put (query_result (my_tank_info tank)))
    else if decide (AICommand.query command = "map") then
      modify (Closure.put (query_result (map_info (State.map s))))
    else if decide (AICommand.query command = "tanks") then
      modify (Closure.put (query_result (tanks_info (State.tanks s).*2)))
    else if decide (AICommand.query command = "my-fire-info") then
      match playerTank s playerName with
      | None =>
        (* [console.assert] only reports; [tank.tankId] then reads a
           property of [null] *)
        throw TypeError
      | Some tank =>
        let cooldown := State.cooldowns s !! TankRecord.tankId tank in
        let bulletCount :=
          bulletCountOf (State.bullets s) (TankRecord.tankId tank) in
        let canFire :=
          PrimFloat.ltb (number_of_nat bulletCount)
                        (TankRecord.bulletLimit tank)
          && cooldown_elapsed cooldown in
        modify (Closure.put
                  (query_result
                     (my_fire_info bulletCount canFire cooldown
                                   (TankRecord.bulletLimit tank))))
      end
    else ret tt
  else
    throw Error.

(** The callback [directionController] polls. *)
Definition getAIInput (s : State.t) : Eff Closure.t (option Input) :=
  match playerTank s playerName with
  | None => ret None
  | Some tank =>
    let* nextDirection := gets Closure.nextDirection in
    let* forwardLength := gets Closure.forwardLength in
    let* startPos := gets Closure.startPos in
    let otherwise : Eff Closure.t (option Input) :=
      if PrimFloat.ltb 0 forwardLength then          (* [forwardLength > 0] *)
        let xy := getDirectionInfo (TankRecord.direction tank) in
        let movedLength :=
          PrimFloat.abs (PrimFloat.sub (TankRecord.get tank xy) startPos) in
        let maxDistance := PrimFloat.sub forwardLength movedLength in
        if PrimFloat.eqb movedLength forwardLength then
          modify (Closure.set_forwardLength 0) ;;
          modify (Closure.put reach) ;;
          ret None
        else
          ret (Some (forward maxDistance))
      else ret None in
    match nextDirection with
    | Some direction =>
      if decide (TankRecord.direction tank ≠ direction) then
        modify (Closure.set_nextDirection None) ;;
        modify (Closure.set_forwardLength 0) ;;
        ret (Some (turn direction))
      else otherwise
    | None => otherwise
    end
  end.

(** The callback [fireController] polls. *)
Definition getFireInput : Eff Closure.t bool :=
  let* fire := gets Closure.fire in
  if fire then
    modify (Closure.set_fire false) ;;
    ret true
  else
    ret false.

(** One round of [notifyWhenBulletComplete], for the [bullets] of one
    [DESTROY_BULLETS] action. *)
Definition notifyWhenBulletComplete (s : State.t)
    (bullets : gmap BulletId BulletRecord.t) : Eff Closure.t unit :=
  match playerTank s playerName with
  | Some tank =>
    if bool_decide
         (Exists (λ b, BulletRecord.tankId b = TankRecord.tankId tank)
                 (map_to_list bullets).*2)
    then modify (Closure.put bullet_complete)
    else ret tt
  | None => ret tt
  end.

(** What can wake a task of [handleCommands] up: a command on the channel, a
    poll by one of the two controllers, a [DESTROY_BULLETS] action. *)
Inductive Event :=
  | Command (command : AICommand.t)
  | PollDirection
  | PollFire
  | DestroyBullets (bullets : gmap BulletId BulletRecord.t).

Inductive Output :=
  | Handled
  | DirectionInput (input : option Input)
  | FireInput (fire : bool).

Definition step (s : State.t) (e : Event) : Eff Closure.t Output :=
  match e with
  | Command command => handleCommand s command ;; ret Handled
  | PollDirection => let* i := getAIInput s in ret (DirectionInput i)
  | PollFire => let* b := getFireInput in ret (FireInput b)
  | DestroyBullets bullets => notifyWhenBulletComplete s bullets ;; ret Handled
  end.

(** A run of [handleCommands]: every event comes with the store of its
    moment.  An exception ends the saga and its forked tasks; the notes put
    before it stay on the channel. *)
Record Run := {
  outputs : list Output;
  final : Closure.t;              (* the closure when the run ends *)
  thrown : option JsError;
}.

Fixpoint run (events : list (State.t * Event)) (c : Closure.t) : Run :=
  match events with
  | [] => {| outputs := []; final := c; thrown := None |}
  | (s, e) :: events' =>
    match step s e c with
    | inl err => {| outputs := []; final := c; thrown := Some err |}
    | inr (o, c') =>
      let r := run events' c' in
      {| outputs := o :: outputs r; final := final r; thrown := thrown r |}
    end
  end.

Definition is_forward_command (e : Event) : Prop :=
  match e with
  | Command command => AICommand.type command = "forward"
  | _ => False
  end.

Definition is_fire_command (e : Event) : Prop :=
  match e with
  | Command command => AICommand.type command = "fire"
  | _ => False
  end.

(** The answers the fire controller got, in order. *)
Definition fire_inputs (os : list Output) : list bool :=
  omap (λ o, match o with FireInput b => Some b | _ => None end) os.

(** How many [reach] notes a channel holds. *)
Definition reach_count (notes : list Note) : nat :=
  length (filter (λ n, n = reach) notes).

(** The command kinds the main loop knows. *)
Definition recognized (command : AICommand.t) : Prop :=
  AICommand.type command = "forward" ∨ AICommand.type command = "fire" ∨
  AICommand.type command = "turn" ∨ AICommand.type command = "query".

(** The distance [getAIInput] measures: how far the tank is, along the axis
    it faces, from where the last [forward] command found it. *)
Definition movedLength (tank : TankRecord.t) (c : Closure.t) : float :=
  PrimFloat.abs
    (PrimFloat.sub
       (TankRecord.get tank (getDirectionInfo (TankRecord.direction tank)))
       (Closure.startPos c)).

(** The test of the turn branch of [getAIInput]:
    [nextDirection && tank.direction !== nextDirection]. *)
Definition turn_pending (tank : TankRecord.t) (c : Closure.t) : Prop :=
  match Closure.nextDirection c with
  | Some d => TankRecord.direction tank ≠ d
  | None => False
  end.

#[global] Instance is_forward_command_dec e : Decision (is_forward_command e).
Proof. destruct e; apply _. Defined.
#[global] Instance is_fire_command_dec e : Decision (is_fire_command e).
Proof. destruct e; apply _. Defined.
#[global] Instance recognized_dec command : Decision (recognized command).
Proof. apply _. Defined.
#[global] Instance turn_pending_dec tank c : Decision (turn_pending tank c).
Proof. unfold turn_pending. destruct (Closure.nextDirection c); apply _. Defined.

Definition is_turn_command (e : Event) : Prop :=
  match e with
  | Command command => AICommand.type command = "turn"
  | _ => False
  end.

#[global] Instance is_turn_command_dec e : Decision (is_turn_command e).
Proof. destruct e; apply _. Defined.

(** How many of the events are [forward] commands, how many [fire]
    commands. *)
Definition forward_commands (events : list (State.t * Event)) : nat :=
  length (filter (λ se, is_forward_command se.2) events).
Definition fire_commands (events : list (State.t * Event)) : nat :=
  length (filter (λ se, is_fire_command se.2) events).

(** How many of the answers are [true]. *)
Definition count_true (answers : list bool) : nat :=
  length (filter (λ b, b = true) answers).

(** [1] while a forward is in progress, [0] otherwise; likewise for the
    fire flag. *)
Definition forward_pending (c : Closure.t) : nat :=
  if PrimFloat.ltb 0 (Closure.forwardLength c) then 1 else 0.
Definition fire_pending (c : Closure.t) : nat :=
  if Closure.fire c then 1 else 0.

(** The events the saga gets through: everything but a command of an
    unknown type and a [query my-fire-info] that finds no tank. *)
Definition survives (se : State.t * Event) : Prop :=
  match se.2 with
  | Command command =>
    recognized command
    ∧ (is_Some (playerTank se.1 playerName)
       ∨ ¬ (AICommand.type command = "query"
            ∧ AICommand.query command = "my-fire-info"))
  | _ => True
  end.

End handleCommands.

(** ** [AIMasterSaga] *)

(** The handle [spawn] returns: tasks are numbered in the order they were
    spawned. *)
Definition Task := nat.

Inductive Action :=
  | LOAD_STAGE
  | KILL (targetTank : TankRecord.t) (targetPlayer : PlayerRecord.t)
  | GAMEOVER
  | CREATE_PLAYER (player : PlayerRecord.t)
  | REMOVE_FIRST_REMAINING_ENEMY
  | ACTIVATE_PLAYER (playerName : string) (tankId : TankId).

Module Master.
Record t := mk {
  store : State.t;
  taskMap : gmap string Task;
  nextAIPlayerIndex : nat;
  spawned : list string;   (* task [i] runs [AIWorkerSaga] for [spawned !! i] *)
  cancelled : gset Task;   (* tasks whose [cancel()] was called *)
  dispatched : list Action; (* actions put so far, oldest first *)
  }.

Definition init (s : State.t) : t := mk s ∅ 0 [] ∅ [].

Definition set_store (s : State.t) (m : t) : t :=
  mk s (taskMap m) (nextAIPlayerIndex m) (spawned m) (cancelled m)
     (dispatched m).
Definition set_taskMap (tm : gmap string Task) (m : t) : t :=
  mk (store m) tm (nextAIPlayerIndex m) (spawned m) (cancelled m)
     (dispatched m).
Definition set_nextAIPlayerIndex (n : nat) (m : t) : t :=
  mk (store m) (taskMap m) n (spawned m) (cancelled m) (dispatched m).
Definition set_spawned (l : list string) (m : t) : t :=
  mk (store m) (taskMap m) (nextAIPlayerIndex m) l (cancelled m)
     (dispatched m).
(** [task.cancel()] *)
Definition cancel (task : Task) (m : t) : t :=
  mk (store m) (taskMap m) (nextAIPlayerIndex m) (spawned m)
     ({[task]} ∪ cancelled m) (dispatched m).
Definition log (a : Action) (m : t) : t :=
  mk (store m) (taskMap m) (nextAIPlayerIndex m) (spawned m) (cancelled m)
     (dispatched m ++ [a]).
End Master.

Section AIMasterSaga.

(** The collaborators of [AIMasterSaga] that live outside the sources at
    hand: the root reducer, the selector [availableSpawnPosition], the saga
    [spawnTank] of [utils/common] (it only touches the store and returns the
    id of the new tank) and the defaults of [TankRecord]. *)
Variable reducer : State.t → Action → State.t.
Variable availableSpawnPosition : State.t → float * float.
Variable spawnTank : TankRecord.t → State.t → TankId * State.t.
Variable TankRecord_defaults : TankRecord.t.

Open Scope eff_scope.

Definition max : nat := 1.

(** [yield put(action)] *)
Definition put (a : Action) : Eff Master.t unit :=
  modify (λ m, Master.log a (Master.set_store (reducer (Master.store m) a) m)).

(** [yield spawn(AIWorkerSaga, playerName, AIWorker)] *)
Definition spawn (playerName : string) : Eff Master.t Task :=
  let* task := gets (λ m, length (Master.spawned m)) in
  modify (λ m, Master.set_spawned (Master.spawned m ++ [playerName]) m) ;;
  ret task.

(** The test [!remainingEnemies.isEmpty()] and [remainingEnemies.first()]
    are one match on the list selected at the start. *)
Definition addAI : Eff Master.t unit :=
  let* remainingEnemies :=
    gets (λ m, State.remainingEnemies (Master.store m)) in
  match remainingEnemies with
  | [] => ret tt
  | level :: _ =>
    let* index := gets Master.nextAIPlayerIndex in
    modify (Master.set_nextAIPlayerIndex (S index)) ;;
    let playerName := "AI-" +:+ pretty index in
    put (CREATE_PLAYER (PlayerRecord.mk playerName Infinity "ai")) ;;
    let* pos := gets (λ m, availableSpawnPosition (Master.store m)) in
    put REMOVE_FIRST_REMAINING_ENEMY ;;
    let hp := if decide (level = "armor") then 4%float else 1%float in
    let* tankId :=
      (λ m,
        let tank :=
          TankRecord.mk (TankRecord.tankId TankRecord_defaults)
            pos.1 pos.2 "ai" level hp
            (TankRecord.direction TankRecord_defaults)
            (TankRecord.bulletLimit TankRecord_defaults) in
        let r := spawnTank tank (Master.store m) in
        inr (r.1, Master.set_store r.2 m)) in
    let* task := spawn playerName in
    modify (λ m, Master.set_taskMap (<[playerName := task]> (Master.taskMap m)) m) ;;
    put (ACTIVATE_PLAYER playerName tankId)
  end.

(** [for (let i = 0; i < n; i += 1) { yield* body }] *)
Fixpoint times (n : nat) (body : Eff Master.t unit) : Eff Master.t unit :=
  match n with
  | O => ret tt
  | S n' => body ;; times n' body
  end.

(** The loop over [Object.entries(taskMap)], the entries being listed once,
    before the first round. *)
Fixpoint cancelAll (entries : list (string * Task)) : Eff Master.t unit :=
  match entries with
  | [] => ret tt
  | (playerName, task) :: entries' =>
    modify (Master.cancel task) ;;
    modify (λ m, Master.set_taskMap (delete playerName (Master.taskMap m)) m) ;;
    cancelAll entries'
  end.

(** The body of the main loop of [AIMasterSaga] for one action taken.  The
    [take] only lets [KILL], [LOAD_STAGE] and [GAMEOVER] through. *)
Definition masterStep (action : Action) : Eff Master.t unit :=
  match action with
  | LOAD_STAGE => times max addAI
  | KILL targetTank targetPlayer =>
    if decide (TankRecord.side targetTank = "ai") then
      let* task :=
        gets (λ m, Master.taskMap m !! PlayerRecord.playerName targetPlayer) in
      match task with
      | None => throw TypeError              (* [undefined.cancel()] *)
      | Some task =>
        modify (Master.cancel task) ;;
        modify (λ m, Master.set_taskMap
                       (delete (PlayerRecord.playerName targetPlayer)
                               (Master.taskMap m)) m) ;;
        addAI
      end
    else ret tt
  | GAMEOVER =>
    let* entries := gets (λ m, map_to_list (Master.taskMap m)) in
    cancelAll entries
  | _ => ret tt
  end.

(** The name [addAI] gives the player of index [index]. *)
Definition AI_name (index : nat) : string := "AI-" +:+ pretty index.

(** A run of [AIMasterSaga]: every action taken comes with the store of its
    moment.  An exception ends the saga where it is. *)
Record MasterRun := {
  master_final : Master.t;
  master_thrown : option JsError;
}.

Fixpoint masterRun (events : list (State.t * Action)) (m : Master.t)
    : MasterRun :=
  match events with
  | [] => {| master_final := m; master_thrown := None |}
  | (s, action) :: events' =>
    match masterStep action (Master.set_store s m) with
    | inl err =>
      {| master_final := Master.set_store s m; master_thrown := Some err |}
    | inr (_, m') => masterRun events' m'
    end
  end.

(** The registry and the tasks agree: the tasks spawned so far are those of
    [AI-0], [AI-1], ... up to [nextAIPlayerIndex]; a registered task is the
    task spawned for that very name and was not cancelled; a task that was
    spawned is registered or was cancelled; only spawned tasks were
    cancelled. *)
Definition registry_wf (m : Master.t) : Prop :=
  Master.spawned m = AI_name <$> seq 0 (Master.nextAIPlayerIndex m)
  ∧ (∀ name task,
       Master.taskMap m !! name = Some task →
       Master.spawned m !! task = Some name ∧ task ∉ Master.cancelled m)
  ∧ (∀ task name,
       Master.spawned m !! task = Some name →
       Master.taskMap m !! name = Some task ∨ task ∈ Master.cancelled m)
  ∧ (∀ task, task ∈ Master.cancelled m → task < length (Master.spawned m)).

End AIMasterSaga.

(** ** Concrete stores and collaborators, for the examples *)

(** A selector for the examples: the player drives tank [0] when the store
    has it. *)
Definition playerTank_demo (s : State.t) (_ : string) : option TankRecord.t :=
  (list_to_map (State.tanks s) : gmap TankId TankRecord.t) !! 0%nat.

Definition tank_demo (x y : float) (direction : Direction.t) : TankRecord.t :=
  TankRecord.mk 0 x y "ai" "basic" 1 direction 1.

Definition store_with (tank : option TankRecord.t)
    (bullets : list BulletRecord.t) (cooldown : float) (pool : list string)
    : State.t :=
  State.mk
    (match tank with Some t => [(0%nat, t)] | None => [] end)
    (list_to_map (imap (λ i b, (i, b)) bullets))
    {[ 0%nat := cooldown ]}
    {| map_payload := [] |}
    pool.

(** The demo tank at [(0, y)], facing [direction]; no bullet in flight, the
    cooldown elapsed, no enemy left. *)
Definition store_at (y : float) (direction : Direction.t) : State.t :=
  store_with (Some (tank_demo 0 y direction)) [] 0 [].

(** The same store once the tank is gone. *)
Definition store_absent : State.t := store_with None [] 0 [].

(** The demo tank with two bullets in flight, one its own and one of tank
    [1]; the cooldown elapsed. *)
Definition store_two_bullets : State.t :=
  State.mk [(0%nat, tank_demo 0 0 Direction.up)]
           {[ 0%nat := BulletRecord.mk 0 0; 1%nat := BulletRecord.mk 1 1 ]}
           {[ 0%nat := 0%float ]}
           {| map_payload := [] |}
           [].

(** The closure after [forward 5] was taken with the tank at [(0, 10)]. *)
Definition closure_forward5 : Closure.t := Closure.mk false None 5 10 [].

Definition reducer_demo (s : State.t) (a : Action) : State.t :=
  match a with
  | REMOVE_FIRST_REMAINING_ENEMY =>
    State.mk (State.tanks s) (State.bullets s) (State.cooldowns s)
             (State.map s) (tail (State.remainingEnemies s))
  | _ => s
  end.

Definition spawnTank_demo (tank : TankRecord.t) (s : State.t)
    : TankId * State.t :=
  let tankId := length (State.tanks s) in
  (tankId,
   State.mk
     (State.tanks s
      ++ [(tankId,
           TankRecord.mk tankId (TankRecord.x tank) (TankRecord.y tank)
             (TankRecord.side tank) (TankRecord.level tank)
             (TankRecord.hp tank) (TankRecord.direction tank)
             (TankRecord.bulletLimit tank))])
     (State.bullets s) (State.cooldowns s) (State.map s)
     (State.remainingEnemies s)).

Definition availableSpawnPosition_demo (_ : State.t) : float * float :=
  (0%float, 0%float).

(** A master with one session, for ["AI-0"], and [pool] as the enemies
    left. *)
Definition master_demo (pool : list string) : Master.t :=
  Master.mk (store_with (Some (tank_demo 0 0 Direction.up)) [] 0 pool)
            {[ "AI-0" := 0%nat ]} 1 ["AI-0"] ∅ [].

Definition kill_demo : Action :=
  KILL (tank_demo 0 0 Direction.up) (PlayerRecord.mk "AI-0" Infinity "ai").

(** ** Properties of [handleCommands] *)

Ltac eff_simpl := cbv [bind ret throw gets modify] in *.

(** Inside the sections below the sagas' names stand for the sagas applied to
    the collaborators at hand; these unfold the sagas themselves. *)
Ltac open_handleCommand := unfold handleCommand.
Ltac open_getAIInput := unfold getAIInput.
Ltac open_step := unfold step.
Ltac open_addAI := unfold addAI.
Ltac open_masterStep := unfold masterStep.
Ltac open_masterRun := cbn [masterRun].
Tactic Notation "open_masterStep" "in" hyp(H) := unfold masterStep in H.

(** Runs [handleCommand] through its chain of comparisons. *)
Ltac by_type :=
  unfold handleCommand;
  repeat (case_decide; try congruence); eff_simpl.

(** Takes the first [if] of the goal both ways. *)
Ltac case_if :=
  match goal with
  | |- context [if ?b then _ else _] => destruct b eqn:?
  end.

(** *** Comparisons of floats *)


Lemma float_eqb_ltb a b :
  (a =? b)%float = true → (a <? b)%float = false.
Proof.
  rewrite FloatAxioms.ltb_spec, FloatAxioms.eqb_spec. unfold SFltb, SFeqb.
  destruct (SFcompare (Prim2SF a) (Prim2SF b)) as [[]|]; congruence.
Qed.

Lemma float_eqb_leb a b :
  (a =? b)%float = true → (a <=? b)%float = true.
Proof.
  rewrite FloatAxioms.leb_spec, FloatAxioms.eqb_spec. unfold SFleb, SFeqb.
  destruct (SFcompare (Prim2SF a) (Prim2SF b)) as [[]|]; congruence.
Qed.

Section handleCommands_properties.

Variable playerTank : State.t → string → option TankRecord.t.
Variable playerName : string.

Local Abbreviation handleCommand := (handleCommand playerTank playerName).
Local Abbreviation getAIInput := (getAIInput playerTank playerName).
Local Abbreviation step := (step playerTank playerName).
Local Abbreviation run := (run playerTank playerName).

Lemma handleCommand_fire s command c :
  AICommand.type command = "fire" →
  handleCommand s command c = inr (tt, Closure.set_fire true c).
Proof. intros H. by_type. reflexivity. Qed.

Lemma handleCommand_turn s command c :
  AICommand.type command = "turn" →
  handleCommand s command c
  = inr (tt, Closure.set_nextDirection (AICommand.direction command) c).
Proof. intros H. by_type. reflexivity. Qed.

Lemma handleCommand_forward s command c tank :
  AICommand.type command = "forward" →
  playerTank s playerName = Some tank →
  handleCommand s command c
  = inr (tt, Closure.set_forwardLength (AICommand.forwardLength command)
               (Closure.set_startPos
                  (TankRecord.get tank
                     (getDirectionInfo (TankRecord.direction tank))) c)).
Proof. intros H Ht. by_type. rewrite Ht. reflexivity. Qed.

Lemma handleCommand_forward_absent s command c :
  AICommand.type command = "forward" →
  playerTank s playerName = None →
  handleCommand s command c = inr (tt, c).
Proof. intros H Ht. by_type. rewrite Ht. reflexivity. Qed.

Lemma handleCommand_unrecognized s command c :
  ¬ recognized command → handleCommand s command c = inl Error.
Proof.
  unfold recognized. intros H. by_type; tauto.
Qed.

(** A query either puts exactly one note or leaves the closure alone; it
    never touches the four variables. *)
Lemma handleCommand_query s command c c' :
  AICommand.type command = "query" →
  handleCommand s command c = inr (tt, c') →
  c' = c ∨ ∃ r, c' = Closure.put (query_result r) c.
Proof.
  intros H. by_type; intros E.
  all: try (right; eexists; injection E as <-; reflexivity).
  - destruct (playerTank s playerName); [|discriminate].
    right; eexists; injection E as <-; reflexivity.
  - left. injection E as <-. reflexivity.
Qed.

(** The three ways a poll of [getAIInput] can go. *)

Lemma getAIInput_absent s c :
  playerTank s playerName = None → getAIInput s c = inr (None, c).
Proof. intros Ht. open_getAIInput. rewrite Ht. reflexivity. Qed.

Lemma getAIInput_turn s c tank d :
  playerTank s playerName = Some tank →
  Closure.nextDirection c = Some d →
  TankRecord.direction tank ≠ d →
  getAIInput s c
  = inr (Some (turn d),
         Closure.set_forwardLength 0 (Closure.set_nextDirection None c)).
Proof.
  intros Ht Hd Hne. open_getAIInput. rewrite Ht.
  eff_simpl. rewrite Hd. case_decide; [reflexivity | contradiction].
Qed.

Lemma getAIInput_no_turn s c tank :
  playerTank s playerName = Some tank →
  ¬ turn_pending tank c →
  getAIInput s c
  = if (0 <? Closure.forwardLength c)%float then
      if (movedLength tank c =? Closure.forwardLength c)%float then
        inr (None, Closure.put reach (Closure.set_forwardLength 0 c))
      else
        inr (Some (forward
                     (Closure.forwardLength c - movedLength tank c)%float), c)
    else inr (None, c).
Proof.
  intros Ht Hno. open_getAIInput; unfold movedLength. rewrite Ht.
  eff_simpl.
  destruct (Closure.nextDirection c) as [d|] eqn:Hd.
  - case_decide as Hne.
    + exfalso. apply Hno. unfold turn_pending. rewrite Hd. exact Hne.
    + repeat case_if; reflexivity.
  - repeat case_if; reflexivity.
Qed.

(** *** No [reach] without a [forward] *)

Lemma reach_count_app notes n :
  reach_count (notes ++ [n])
  = (reach_count notes + if decide (n = reach) then 1 else 0)%nat.
Proof.
  unfold reach_count. rewrite filter_app, length_app.
  rewrite filter_cons, filter_nil. case_decide; reflexivity.
Qed.

Lemma reach_count_put_query c r :
  reach_count (Closure.noteChannel (Closure.put (query_result r) c))
  = reach_count (Closure.noteChannel c).
Proof. simpl. rewrite reach_count_app. case_decide; [discriminate | lia]. Qed.

Lemma step_keeps_idle s e c o c' :
  ¬ is_forward_command e →
  (0 <? Closure.forwardLength c)%float = false →
  step s e c = inr (o, c') →
  (0 <? Closure.forwardLength c')%float = false
  ∧ reach_count (Closure.noteChannel c') = reach_count (Closure.noteChannel c).
Proof.
  intros Hnf Hidle. destruct e as [command| | |bullets]; simpl in Hnf.
  - open_step; unfold bind at 1.
    destruct (handleCommand s command c) as [err|[[] c1]] eqn:E;
      [discriminate|].
    intros [= <- <-].
    destruct (decide (AICommand.type command = "fire")) as [Hf|Hf].
    { rewrite handleCommand_fire in E by exact Hf.
      injection E as <-. split; [exact Hidle | reflexivity]. }
    destruct (decide (AICommand.type command = "turn")) as [Ht|Ht].
    { rewrite handleCommand_turn in E by exact Ht.
      injection E as <-. split; [exact Hidle | reflexivity]. }
    destruct (decide (AICommand.type command = "query")) as [Hq|Hq].
    { destruct (handleCommand_query s command c c1 Hq E) as [->|[r ->]].
      - split; [exact Hidle | reflexivity].
      - split; [exact Hidle | apply reach_count_put_query]. }
    rewrite handleCommand_unrecognized in E; [discriminate|].
    unfold recognized. tauto.
  - open_step; unfold bind at 1.
    destruct (playerTank s playerName) as [tank|] eqn:Ht.
    + destruct (Closure.nextDirection c) as [d|] eqn:Hd.
      * destruct (decide (TankRecord.direction tank = d)) as [Heq|Hne].
        -- rewrite (getAIInput_no_turn s c tank Ht).
           2:{ unfold turn_pending. rewrite Hd. tauto. }
           rewrite Hidle.
           intros [= <- <-]. split; [exact Hidle | reflexivity].
        -- rewrite (getAIInput_turn s c tank d Ht Hd Hne).
           intros [= <- <-]. split; [reflexivity | reflexivity].
      * rewrite (getAIInput_no_turn s c tank Ht).
        2:{ unfold turn_pending. rewrite Hd. tauto. }
        rewrite Hidle.
        intros [= <- <-]. split; [exact Hidle | reflexivity].
    + rewrite getAIInput_absent by exact Ht.
      intros [= <- <-]. split; [exact Hidle | reflexivity].
  - open_step; unfold getFireInput. eff_simpl.
    destruct (Closure.fire c); intros [= <- <-];
      (split; [exact Hidle | reflexivity]).
  - open_step; unfold notifyWhenBulletComplete.
    destruct (playerTank s playerName) as [tank|]; eff_simpl.
    + case_bool_decide; intros [= <- <-].
      * split; [exact Hidle|]. simpl. rewrite reach_count_app.
        case_decide; [discriminate | lia].
      * split; [exact Hidle | reflexivity].
    + intros [= <- <-]. split; [exact Hidle | reflexivity].
Qed.

(** Once [forwardLength] is back to [0], a run that takes no [forward]
    command puts no [reach] note, however long it is and whatever the store
    does meanwhile. *)
Lemma run_no_reach events c :
  Forall (λ se, ¬ is_forward_command se.2) events →
  (0 <? Closure.forwardLength c)%float = false →
  reach_count (Closure.noteChannel (final (run events c)))
  = reach_count (Closure.noteChannel c).
Proof.
  intros Hall. revert c.
  induction Hall as [|[s e] events Hnf _ IH]; intros c Hidle; [reflexivity|].
  simpl. destruct (step s e c) as [err|[o c']] eqn:E; [reflexivity|]. simpl.
  destruct (step_keeps_idle s e c o c' Hnf Hidle E) as [Hidle' Hcount].
  rewrite IH by exact Hidle'. exact Hcount.
Qed.

(** *** The fire flag *)

Lemma handleCommand_keeps_fire s command c c' :
  AICommand.type command ≠ "fire" →
  handleCommand s command c = inr (tt, c') →
  Closure.fire c' = Closure.fire c.
Proof.
  intros Hnf. by_type; try destruct (playerTank s playerName);
    intros E; try discriminate; injection E as <-; reflexivity.
Qed.

Lemma getAIInput_keeps_fire s c i c' :
  getAIInput s c = inr (i, c') → Closure.fire c' = Closure.fire c.
Proof.
  open_getAIInput.
  destruct (playerTank s playerName) as [tank|]; eff_simpl.
  - destruct (Closure.nextDirection c);
      repeat first [case_decide | case_bool_decide | case_if];
      intros [= <- <-]; reflexivity.
  - intros [= <- <-]; reflexivity.
Qed.

Lemma notifyWhenBulletComplete_keeps_fire s bullets c c' :
  notifyWhenBulletComplete playerTank playerName s bullets c = inr (tt, c') →
  Closure.fire c' = Closure.fire c.
Proof.
  unfold notifyWhenBulletComplete.
  destruct (playerTank s playerName); [case_bool_decide|];
    eff_simpl; intros [= <-]; reflexivity.
Qed.

(** With the flag down and no [fire] command coming, every poll of the fire
    controller is answered [false]. *)
Lemma run_fire_down events c :
  Forall (λ se, ¬ is_fire_command se.2) events →
  Closure.fire c = false →
  ∃ k, fire_inputs (outputs (run events c)) = replicate k false.
Proof.
  intros Hall. revert c.
  induction Hall as [|[s e] events Hnf _ IH]; intros c Hdown.
  { exists 0%nat. reflexivity. }
  simpl. destruct (step s e c) as [err|[o c']] eqn:E.
  { exists 0%nat. reflexivity. }
  simpl in Hnf. destruct e as [command| | |bullets]; simpl in E.
  - unfold bind in E.
    destruct (handleCommand s command c) as [|[[] c1]] eqn:E1; [discriminate|].
    injection E as <- <-.
    destruct (IH c1) as [k Hk].
    { rewrite (handleCommand_keeps_fire s command c c1 Hnf E1). exact Hdown. }
    exists k. exact Hk.
  - unfold bind in E.
    destruct (getAIInput s c) as [|[i c1]] eqn:E1; [discriminate|].
    injection E as <- <-.
    destruct (IH c1) as [k Hk].
    { rewrite (getAIInput_keeps_fire s c i c1 E1). exact Hdown. }
    exists k. exact Hk.
  - unfold getFireInput in E. eff_simpl. rewrite Hdown in E.
    injection E as <- <-.
    destruct (IH c Hdown) as [k Hk]. exists (S k). simpl. rewrite Hk.
    reflexivity.
  - unfold bind in E.
    destruct (notifyWhenBulletComplete _ _ s bullets c) as [|[[] c1]] eqn:E1;
      [discriminate|].
    injection E as <- <-.
    destruct (IH c1) as [k Hk].
    { rewrite (notifyWhenBulletComplete_keeps_fire s bullets c c1 E1).
      exact Hdown. }
    exists k. exact Hk.
Qed.

Lemma run_fire_up events c :
  Forall (λ se, ¬ is_fire_command se.2) events →
  Closure.fire c = true →
  fire_inputs (outputs (run events c)) = []
  ∨ ∃ k, fire_inputs (outputs (run events c)) = true :: replicate k false.
Proof.
  intros Hall. revert c.
  induction Hall as [|[s e] events Hnf Hrest IH]; intros c Hup.
  { left. reflexivity. }
  simpl. destruct (step s e c) as [err|[o c']] eqn:E.
  { left. reflexivity. }
  simpl in Hnf. destruct e as [command| | |bullets]; simpl in E.
  - unfold bind in E.
    destruct (handleCommand s command c) as [|[[] c1]] eqn:E1; [discriminate|].
    injection E as <- <-. apply IH.
    rewrite (handleCommand_keeps_fire s command c c1 Hnf E1). exact Hup.
  - unfold bind in E.
    destruct (getAIInput s c) as [|[i c1]] eqn:E1; [discriminate|].
    injection E as <- <-. apply IH.
    rewrite (getAIInput_keeps_fire s c i c1 E1). exact Hup.
  - unfold getFireInput in E. eff_simpl. rewrite Hup in E.
    injection E as <- <-. right.
    destruct (run_fire_down events (Closure.set_fire false c) Hrest eq_refl)
      as [k Hk].
    exists k. simpl. rewrite Hk. reflexivity.
  - unfold bind in E.
    destruct (notifyWhenBulletComplete _ _ s bullets c) as [|[[] c1]] eqn:E1;
      [discriminate|].
    injection E as <- <-. apply IH.
    rewrite (notifyWhenBulletComplete_keeps_fire s bullets c c1 E1).
    exact Hup.
Qed.

(** *** Every way a step can go *)

Lemma handleCommand_inv s command c c' :
  handleCommand s command c = inr (tt, c') →
  (AICommand.type command = "forward"
   ∧ ((playerTank s playerName = None ∧ c' = c)
      ∨ ∃ tank, playerTank s playerName = Some tank
          ∧ c' = Closure.set_forwardLength (AICommand.forwardLength command)
                   (Closure.set_startPos
                      (TankRecord.get tank
                         (getDirectionInfo (TankRecord.direction tank))) c)))
  ∨ (AICommand.type command = "fire" ∧ c' = Closure.set_fire true c)
  ∨ (AICommand.type command = "turn"
     ∧ c' = Closure.set_nextDirection (AICommand.direction command) c)
  ∨ (AICommand.type command = "query"
     ∧ (c' = c ∨ ∃ r, c' = Closure.put (query_result r) c)).
Proof.
  intros E.
  destruct (decide (AICommand.type command = "forward")) as [Hf|Hf].
  { left. split; [exact Hf|].
    destruct (playerTank s playerName) as [tank|] eqn:Ht.
    - rewrite (handleCommand_forward s command c tank Hf Ht) in E.
      injection E as <-. right. exists tank. split; reflexivity.
    - rewrite (handleCommand_forward_absent s command c Hf Ht) in E.
      injection E as <-. left. split; reflexivity. }
  destruct (decide (AICommand.type command = "fire")) as [Hfi|Hfi].
  { right. left. rewrite handleCommand_fire in E by exact Hfi.
    injection E as <-. split; [exact Hfi | reflexivity]. }
  destruct (decide (AICommand.type command = "turn")) as [Ht|Ht].
  { right. right. left. rewrite handleCommand_turn in E by exact Ht.
    injection E as <-. split; [exact Ht | reflexivity]. }
  destruct (decide (AICommand.type command = "query")) as [Hq|Hq].
  { right. right. right. split; [exact Hq|].
    exact (handleCommand_query s command c c' Hq E). }
  rewrite handleCommand_unrecognized in E; [discriminate|].
  unfold recognized. tauto.
Qed.

Lemma getAIInput_inv s c i c' :
  getAIInput s c = inr (i, c') →
  (playerTank s playerName = None ∧ i = None ∧ c' = c)
  ∨ (∃ tank d,
       playerTank s playerName = Some tank
       ∧ Closure.nextDirection c = Some d
       ∧ TankRecord.direction tank ≠ d
       ∧ i = Some (turn d)
       ∧ c' = Closure.set_forwardLength 0 (Closure.set_nextDirection None c))
  ∨ (∃ tank,
       playerTank s playerName = Some tank
       ∧ ¬ turn_pending tank c
       ∧ (((0 <? Closure.forwardLength c)%float = false ∧ i = None ∧ c' = c)
          ∨ ((0 <? Closure.forwardLength c)%float = true
             ∧ (movedLength tank c =? Closure.forwardLength c)%float = true
             ∧ i = None
             ∧ c' = Closure.put reach (Closure.set_forwardLength 0 c))
          ∨ ((0 <? Closure.forwardLength c)%float = true
             ∧ (movedLength tank c =? Closure.forwardLength c)%float = false
             ∧ i = Some (forward (Closure.forwardLength c
                                  - movedLength tank c)%float)
             ∧ c' = c))).
Proof.
  intros E. destruct (playerTank s playerName) as [tank|] eqn:Ht.
  - destruct (decide (turn_pending tank c)) as [Hp|Hp].
    + right. left. unfold turn_pending in Hp.
      destruct (Closure.nextDirection c) as [d|] eqn:Hd; [|contradiction].
      rewrite (getAIInput_turn s c tank d Ht Hd Hp) in E.
      injection E as <- <-. exists tank, d. repeat split; assumption.
    + right. right. exists tank. split; [reflexivity|]. split; [exact Hp|].
      rewrite (getAIInput_no_turn s c tank Ht Hp) in E.
      destruct (0 <? Closure.forwardLength c)%float eqn:Hfl;
        [destruct (movedLength tank c =? Closure.forwardLength c)%float
           eqn:Hmv|];
        injection E as <- <-.
      * right. left. repeat split.
      * right. right. repeat split.
      * left. repeat split.
  - left. rewrite getAIInput_absent in E by exact Ht.
    injection E as <- <-. repeat split.
Qed.

Lemma notifyWhenBulletComplete_inv s bullets c c' :
  notifyWhenBulletComplete playerTank playerName s bullets c = inr (tt, c') →
  c' = c ∨ c' = Closure.put bullet_complete c.
Proof.
  unfold notifyWhenBulletComplete.
  destruct (playerTank s playerName); [case_bool_decide|];
    eff_simpl; intros [= <-]; tauto.
Qed.

Lemma step_inv s e c o c' :
  step s e c = inr (o, c') →
  match e with
  | Command command => o = Handled ∧ handleCommand s command c = inr (tt, c')
  | PollDirection => ∃ i, o = DirectionInput i ∧ getAIInput s c = inr (i, c')
  | PollFire =>
    o = FireInput (Closure.fire c)
    ∧ c' = (if Closure.fire c then Closure.set_fire false c else c)
  | DestroyBullets bullets =>
    o = Handled
    ∧ notifyWhenBulletComplete playerTank playerName s bullets c = inr (tt, c')
  end.
Proof.
  destruct e as [command| | |bullets]; open_step; unfold bind at 1.
  - destruct (handleCommand s command c) as [|[[] c1]]; [discriminate|].
    intros [= <- <-]. split; reflexivity.
  - destruct (getAIInput s c) as [|[i c1]]; [discriminate|].
    intros [= <- <-]. exists i. split; reflexivity.
  - unfold getFireInput. eff_simpl.
    destruct (Closure.fire c); intros [= <- <-]; split; reflexivity.
  - destruct (notifyWhenBulletComplete _ _ s bullets c) as [|[[] c1]];
      [discriminate|].
    intros [= <- <-]. split; reflexivity.
Qed.



(** *** The claims about [handleCommands] *)

Lemma getAIInput_turn_inv s c d c2 :
  getAIInput s c = inr (Some (turn d), c2) →
  ∃ tank, playerTank s playerName = Some tank
    ∧ Closure.nextDirection c = Some d
    ∧ TankRecord.direction tank ≠ d
    ∧ c2 = Closure.set_forwardLength 0 (Closure.set_nextDirection None c).
Proof.
  open_getAIInput.
  destruct (playerTank s playerName) as [tank|]; eff_simpl; [|discriminate].
  destruct (Closure.nextDirection c) as [d'|];
    repeat first [case_decide | case_bool_decide | case_if];
    intros E; try discriminate.
  injection E as -> <-. exists tank. repeat split; assumption.
Qed.


(** C2: with the tank present, [query my-fire-info] puts exactly one note,
    the [my-fire-info] result.  Its [bulletCount] is the number of bullets
    of the store whose [tankId] is the tank's (the size of the set of their
    ids), its [bulletLimit] and [cooldown] are the tank's, and [canFire]
    holds exactly when the count is below the limit and the cooldown is at
    most [0]; so it is [false] when the count equals the limit and [true]
    when the cooldown is [0] and the count is below the limit. *)
Theorem my_fire_info_canFire s c command tank :
  AICommand.type command = "query" →
  AICommand.query command = "my-fire-info" →
  playerTank s playerName = Some tank →
  ∃ (owned : gset BulletId) (canFire : bool),
    (∀ id, id ∈ owned ↔
           ∃ b, State.bullets s !! id = Some b
                ∧ BulletRecord.tankId b = TankRecord.tankId tank)
    ∧ let bulletCount := size owned in
      let bulletLimit := TankRecord.bulletLimit tank in
      let cooldown := State.cooldowns s !! TankRecord.tankId tank in
      handleCommand s command c
      = inr (tt, Closure.put
                   (query_result
                      (my_fire_info bulletCount canFire cooldown bulletLimit))
                   c)
      ∧ (canFire = true ↔
         (number_of_nat bulletCount <? bulletLimit)%float = true
         ∧ ∃ v, cooldown = Some v ∧ (v <=? 0)%float = true)
      ∧ ((number_of_nat bulletCount =? bulletLimit)%float = true →
         canFire = false)
      ∧ (∀ v, cooldown = Some v → (v =? 0)%float = true →
         (number_of_nat bulletCount <? bulletLimit)%float = true →
         canFire = true).
Proof.
  intros Hty Hq Ht.
  set (own := filter (λ kb : BulletId * BulletRecord.t,
                        BulletRecord.tankId kb.2 = TankRecord.tankId tank)
                     (State.bullets s)).
  assert (Hsize : size (dom own) = bulletCountOf (State.bullets s)
                                     (TankRecord.tankId tank)).
  { unfold bulletCountOf. fold own. apply size_dom. }
  exists (dom own),
    ((number_of_nat (size (dom own)) <? TankRecord.bulletLimit tank)%float
     && cooldown_elapsed (State.cooldowns s !! TankRecord.tankId tank)).
  split.
  { intros id. rewrite elem_of_dom. unfold own, is_Some. split.
    - intros [b Hb]. apply map_lookup_filter_Some in Hb as [Hl Hown].
      exists b. split; [exact Hl | exact Hown].
    - intros (b & Hl & Hown). exists b. apply map_lookup_filter_Some.
      split; [exact Hl | exact Hown]. }
  cbv zeta. split; [|split; [|split]].
  - rewrite Hsize. open_handleCommand. rewrite Hty, Hq, Ht.
    repeat (rewrite decide_False by discriminate).
    rewrite decide_True by reflexivity.
    repeat (rewrite decide_False by discriminate).
    rewrite decide_True by reflexivity. reflexivity.
  - rewrite andb_true_iff. unfold cooldown_elapsed.
    destruct (State.cooldowns s !! TankRecord.tankId tank) as [v|].
    + split.
      * intros [? ?]. split; [assumption|]. exists v. split; [reflexivity|assumption].
      * intros [? [v' [[= <-] ?]]]. split; assumption.
    + split; [intros [_ [=]] | intros [_ [v' [[=] _]]]].
  - intros Heq. rewrite (float_eqb_ltb _ _ Heq). reflexivity.
  - intros v Hcd Hzero Hlt. rewrite Hlt, Hcd. simpl.
    apply float_eqb_leb. exact Hzero.
Qed.

(** C3: with a forward in progress, a [turn] command leaves it in progress
    until a poll consumes the pending direction.  The poll that does (it
    answers [turn]), right after the command or after any number of other
    events, sets [forwardLength] to [0] and clears the pending direction
    without putting a note, and from there no run without a new [forward]
    command puts a [reach] note.  Right after the command, a poll does
    consume the direction as soon as the tank exists and faces another
    way. *)
Theorem turn_clears_forward s c command :
  (0 <? Closure.forwardLength c)%float = true →
  AICommand.type command = "turn" →
  ∃ c1,
    handleCommand s command c = inr (tt, c1)
    ∧ Closure.forwardLength c1 = Closure.forwardLength c
    ∧ Closure.nextDirection c1 = AICommand.direction command
    ∧ (∀ before s' d c2,
         getAIInput s' (final (run before c1)) = inr (Some (turn d), c2) →
         Closure.forwardLength c2 = 0%float
         ∧ Closure.nextDirection c2 = None
         ∧ Closure.noteChannel c2 = Closure.noteChannel (final (run before c1))
         ∧ ∀ events,
             Forall (λ se, ¬ is_forward_command se.2) events →
             reach_count (Closure.noteChannel (final (run events c2)))
             = reach_count (Closure.noteChannel c2))
    ∧ (∀ s' tank d,
         playerTank s' playerName = Some tank →
         AICommand.direction command = Some d →
         TankRecord.direction tank ≠ d →
         getAIInput s' c1
         = inr (Some (turn d),
                Closure.set_forwardLength 0
                  (Closure.set_nextDirection None c1))).
Proof.
  intros Hprog Hty. eexists. split; [apply handleCommand_turn; exact Hty|].
  split; [reflexivity|]. split; [reflexivity|]. split.
  - intros before s' d c2 E.
    destruct (getAIInput_turn_inv s' _ d c2 E) as (tank & Ht & Hd & Hne & ->).
    repeat split.
    intros events Hall. apply run_no_reach; [exact Hall | reflexivity].
  - intros s' tank d Ht Hd Hne.
    apply (getAIInput_turn s' _ tank d Ht); [exact Hd | exact Hne].
Qed.

(** C4 (as amended): a [fire] command raises the flag, and raises it only:
    taken with the flag already up it changes nothing.  The next poll of the
    fire controller answers [true] and lowers the flag, the poll after that
    answers [false]; and in any run that follows the command without
    another [fire] command, whatever else happens in between, the polls of
    the fire controller are answered [true] once, first, and [false] ever
    after. *)
Theorem fire_edge_triggered s c command :
  AICommand.type command = "fire" →
  let c1 := Closure.set_fire true c in
  let c2 := Closure.set_fire false c1 in
  handleCommand s command c = inr (tt, c1)
  ∧ (∀ s', handleCommand s' command c1 = inr (tt, c1))
  ∧ getFireInput c1 = inr (true, c2)
  ∧ getFireInput c2 = inr (false, c2)
  ∧ ∀ events,
      Forall (λ se, ¬ is_fire_command se.2) events →
      fire_inputs (outputs (run events c1)) = []
      ∨ ∃ k, fire_inputs (outputs (run events c1)) = true :: replicate k false.
Proof.
  intros Hty c1 c2. split; [apply handleCommand_fire; exact Hty|].
  split; [intros s'; apply handleCommand_fire; exact Hty|].
  split; [reflexivity|]. split; [reflexivity|].
  intros events Hall. apply run_fire_up; [exact Hall | reflexivity].
Qed.

Lemma handleCommand_recognized s command c :
  recognized command →
  is_Some (playerTank s playerName)
  ∨ ¬ (AICommand.type command = "query"
       ∧ AICommand.query command = "my-fire-info") →
  ∃ c', handleCommand s command c = inr (tt, c').
Proof.
  unfold recognized. intros Hrec Hok.
  by_type; try (eexists; reflexivity); try tauto.
  - destruct (playerTank s playerName); eexists; reflexivity.
  - destruct (playerTank s playerName) as [tank|] eqn:Ht.
    + eexists; reflexivity.
    + destruct Hok as [[? [=]]|Hok]. exfalso. apply Hok. split; assumption.
Qed.

(** C5 (as amended): while the tank is absent, a [forward] command leaves
    the closure as it was, [query my-tank] puts the result with the absent
    marker, every recognized command other than [query my-fire-info] is
    handled without an exception, and a poll of [getAIInput] answers [null]
    and changes nothing. *)
Theorem absent_tank_tolerated s c command :
  playerTank s playerName = None →
  (AICommand.type command = "forward" →
   handleCommand s command c = inr (tt, c))
  ∧ (AICommand.type command = "query" →
     AICommand.query command = "my-tank" →
     handleCommand s command c
     = inr (tt, Closure.put (query_result (my_tank_info None)) c))
  ∧ (recognized command →
     ¬ (AICommand.type command = "query"
        ∧ AICommand.query command = "my-fire-info") →
     ∃ c', handleCommand s command c = inr (tt, c'))
  ∧ getAIInput s c = inr (None, c).
Proof.
  intros Ht. repeat split.
  - intros Hty. apply handleCommand_forward_absent; assumption.
  - intros Hty Hq. by_type. rewrite Ht. reflexivity.
  - intros Hrec Hnot. apply handleCommand_recognized; [exact Hrec|].
    right. exact Hnot.
  - apply getAIInput_absent. exact Ht.
Qed.

(** C6 (as amended): a command whose type is none of [forward], [fire],
    [turn], [query] makes the handler throw [Error], which ends the run
    there, nothing put and nothing changed; a command of a recognized type
    never reaches that [throw], and is handled without any exception
    whenever the tank exists or the command is not [query my-fire-info]. *)
Theorem unrecognized_command_fatal s c command :
  (¬ recognized command →
   handleCommand s command c = inl Error
   ∧ ∀ events,
       run ((s, Command command) :: events) c
       = {| outputs := []; final := c; thrown := Some Error |})
  ∧ (recognized command →
     handleCommand s command c ≠ inl Error
     ∧ (is_Some (playerTank s playerName)
        ∨ ¬ (AICommand.type command = "query"
             ∧ AICommand.query command = "my-fire-info") →
        ∃ c', handleCommand s command c = inr (tt, c'))).
Proof.
  split.
  - intros Hun. pose proof (handleCommand_unrecognized s command c Hun) as E.
    split; [exact E|]. intros events. simpl. unfold bind. rewrite E.
    reflexivity.
  - intros Hrec. split.
    + unfold recognized in Hrec. by_type; try discriminate; try tauto.
      * destruct (playerTank s playerName); discriminate.
      * destruct (playerTank s playerName); discriminate.
    + apply handleCommand_recognized. exact Hrec.
Qed.

(** C9 (as amended): when the pending direction is the one the tank faces,
    a poll does not answer [turn] and the direction stays pending; the poll
    goes on to the forward branch: with [forwardLength > 0] it answers
    [forward (forwardLength - moved)] and changes nothing unless the
    distance moved equals [forwardLength], in which case the forward
    completes ([reach] put, [forwardLength] reset, [null] answered); with no
    forward in progress it answers [null].  And a poll only takes a pending
    direction away when the tank exists and faces another way, answering
    [turn].  The distance, the difference and the comparisons are those of
    the floats. *)
Theorem facing_turn_stays_pending :
  (∀ s c tank d,
     playerTank s playerName = Some tank →
     Closure.nextDirection c = Some d →
     TankRecord.direction tank = d →
     ∃ i c',
       getAIInput s c = inr (i, c')
       ∧ Closure.nextDirection c' = Some d
       ∧ (∀ d', i ≠ Some (turn d'))
       ∧ ((0 <? Closure.forwardLength c)%float = true →
          (movedLength tank c =? Closure.forwardLength c)%float = false →
          i = Some (forward (Closure.forwardLength c
                             - movedLength tank c)%float)
          ∧ c' = c)
       ∧ ((0 <? Closure.forwardLength c)%float = true →
          (movedLength tank c =? Closure.forwardLength c)%float = true →
          i = None
          ∧ c' = Closure.put reach (Closure.set_forwardLength 0 c))
       ∧ ((0 <? Closure.forwardLength c)%float = false →
          i = None ∧ c' = c))
  ∧ (∀ s c d i c',
       Closure.nextDirection c = Some d →
       getAIInput s c = inr (i, c') →
       Closure.nextDirection c' ≠ Some d →
       ∃ tank, playerTank s playerName = Some tank
         ∧ TankRecord.direction tank ≠ d
         ∧ i = Some (turn d)).
Proof.
  split.
  - intros s c tank d Ht Hd Hface.
    assert (Hno : ¬ turn_pending tank c).
    { unfold turn_pending. rewrite Hd. tauto. }
    rewrite (getAIInput_no_turn s c tank Ht Hno).
    destruct (0 <? Closure.forwardLength c)%float eqn:Hfl;
      [destruct (movedLength tank c =? Closure.forwardLength c)%float
         eqn:Hmv|];
      eexists _, _;
      (split; [reflexivity|]); (split; [exact Hd|]);
      (split; [intros d'; discriminate|]);
      repeat split; intros; first [reflexivity | congruence].
  - intros s c d i c' Hd E Hgone.
    destruct (playerTank s playerName) as [tank|] eqn:Ht.
    + destruct (decide (TankRecord.direction tank = d)) as [Heq|Hne].
      * exfalso. apply Hgone.
        assert (Hno : ¬ turn_pending tank c).
        { unfold turn_pending. rewrite Hd. tauto. }
        rewrite (getAIInput_no_turn s c tank Ht Hno) in E.
        destruct (0 <? Closure.forwardLength c)%float;
          [destruct (movedLength tank c =? Closure.forwardLength c)%float|];
          injection E as <- <-; exact Hd.
      * rewrite (getAIInput_turn s c tank d Ht Hd Hne) in E.
        injection E as <- <-. exists tank. repeat split. exact Hne.
    + rewrite getAIInput_absent in E by exact Ht. injection E as <- <-.
      contradiction.
Qed.

(** C10: a [query] command whose [query] field is none of [my-tank], [map],
    [tanks], [my-fire-info] is skipped: the handler returns normally, the
    closure (the four variables and the note channel) is exactly what it
    was, and the run goes on with the next event as if from there. *)
Theorem unknown_query_skipped s c command :
  AICommand.type command = "query" →
  AICommand.query command ≠ "my-tank" →
  AICommand.query command ≠ "map" →
  AICommand.query command ≠ "tanks" →
  AICommand.query command ≠ "my-fire-info" →
  handleCommand s command c = inr (tt, c)
  ∧ ∀ events,
      run ((s, Command command) :: events) c
      = {| outputs := Handled :: outputs (run events c);
           final := final (run events c);
           thrown := thrown (run events c) |}.
Proof.
  intros Hty H1 H2 H3 H4.
  assert (E : handleCommand s command c = inr (tt, c)).
  { by_type. reflexivity. }
  split; [exact E|]. intros events. simpl. unfold bind. rewrite E.
  reflexivity.
Qed.

(** *** Further properties of [handleCommands] *)

Lemma run_app events1 events2 c :
  thrown (run events1 c) = None →
  run (events1 ++ events2) c
  = {| outputs := outputs (run events1 c)
                  ++ outputs (run events2 (final (run events1 c)));
       final := final (run events2 (final (run events1 c)));
       thrown := thrown (run events2 (final (run events1 c))) |}.
Proof.
  revert c. induction events1 as [|[s e] events1 IH]; intros c Hok.
  - simpl. destruct (run events2 c). reflexivity.
  - simpl in *. destruct (step s e c) as [err|[o c']]; [discriminate|].
    simpl in *. rewrite IH by exact Hok. reflexivity.
Qed.

Lemma run_turns events c :
  Forall (λ se, is_turn_command se.2) events →
  thrown (run events c) = None
  ∧ ∀ d, Closure.set_nextDirection d (final (run events c))
         = Closure.set_nextDirection d c.
Proof.
  intros Hall. revert c.
  induction Hall as [|[s e] events Hturn _ IH]; intros c.
  { split; reflexivity. }
  destruct e as [command| | |]; simpl in Hturn; try contradiction.
  simpl. unfold bind. rewrite handleCommand_turn by exact Hturn. simpl.
  destruct (IH (Closure.set_nextDirection (AICommand.direction command) c))
    as [Hok Hd].
  split; [exact Hok|]. intros d. rewrite Hd. reflexivity.
Qed.

(** X1: however many [turn] commands came before without a poll in
    between, after one more the closure is the original one with the last
    direction pending: only the last direction asked for survives. *)
Theorem last_turn_wins events s command c :
  Forall (λ se, is_turn_command se.2) events →
  AICommand.type command = "turn" →
  run (events ++ [(s, Command command)]) c
  = {| outputs := replicate (S (length events)) Handled;
       final := Closure.set_nextDirection (AICommand.direction command) c;
       thrown := None |}.
Proof.
  intros Hall Hty. destruct (run_turns events c Hall) as [Hok Hd].
  rewrite run_app by exact Hok. simpl. unfold bind.
  rewrite handleCommand_turn by exact Hty. simpl. f_equal.
  - clear Hok Hd. revert c.
    induction Hall as [|[s' e] events Hturn _ IH]; intros c; [reflexivity|].
    destruct e as [command'| | |]; simpl in Hturn; try contradiction.
    simpl. unfold bind. rewrite handleCommand_turn by exact Hturn. simpl.
    rewrite IH. reflexivity.
  - apply Hd.
Qed.

(** X2: the forward completes only at a poll that finds the tank at
    exactly the asked distance.  As long as the polls find the tank, no
    other direction pending, at a distance that is not equal to
    [forwardLength], beyond the target included, each one answers
    [forward (forwardLength - moved)], nothing changes and no note is put.
    Distance, difference and equality are those of the floats. *)
Theorem forward_pending_until_exact events c :
  (0 <? Closure.forwardLength c)%float = true →
  Forall (λ se, se.2 = PollDirection
                ∧ ∃ tank, playerTank se.1 playerName = Some tank
                    ∧ ¬ turn_pending tank c
                    ∧ (movedLength tank c =? Closure.forwardLength c)%float
                      = false) events →
  final (run events c) = c
  ∧ thrown (run events c) = None
  ∧ Forall2 (λ se o,
       ∃ tank, playerTank se.1 playerName = Some tank
         ∧ o = DirectionInput
                 (Some (forward (Closure.forwardLength c
                                 - movedLength tank c)%float)))
      events (outputs (run events c)).
Proof.
  intros Hfl Hall.
  induction Hall as [|[s e] events [He (tank & Ht & Hp & Hmv)] _ IH].
  { repeat split. constructor. }
  simpl in He. subst e. simpl. unfold bind.
  rewrite (getAIInput_no_turn s c tank Ht Hp), Hfl, Hmv. simpl.
  destruct IH as (Hfin & Hthrown & Houts).
  split; [exact Hfin|]. split; [exact Hthrown|].
  constructor; [|exact Houts]. exists tank. split; [exact Ht | reflexivity].
Qed.

(** X3: a poll answers [forward maxDistance] only in one way: the tank
    exists, no other direction is pending, a forward is in progress, the
    distance moved is not equal to its length, and [maxDistance] is the
    length less the distance moved, as the floats subtract; the poll then
    changes nothing. *)
Theorem forward_input_bounds s c maxDistance c' :
  getAIInput s c = inr (Some (forward maxDistance), c') →
  c' = c
  ∧ (0 <? Closure.forwardLength c)%float = true
  ∧ ∃ tank, playerTank s playerName = Some tank
      ∧ ¬ turn_pending tank c
      ∧ (movedLength tank c =? Closure.forwardLength c)%float = false
      ∧ maxDistance = (Closure.forwardLength c - movedLength tank c)%float.
Proof.
  intros E.
  destruct (getAIInput_inv s c _ c' E)
    as [(_ & [=] & _)
       |[(tank & d & _ & _ & _ & [=] & _)
        |(tank & Ht & Hp & [(_ & [=] & _)
                           |[(_ & _ & [=] & _)
                            |(Hfl & Hmv & [= ->] & ->)]])]].
  split; [reflexivity|]. split; [exact Hfl|].
  exists tank. repeat split; assumption.
Qed.

(** X4: the only note a poll of [getAIInput] ever puts is [reach], one at a
    time, and it puts it exactly when the tank exists, no other direction is
    pending and the distance moved equals a positive [forwardLength], as
    the floats compare; it then answers [null] and leaves [forwardLength]
    at [0]. *)
Theorem poll_puts_only_reach s c i c' :
  getAIInput s c = inr (i, c') →
  (Closure.noteChannel c' = Closure.noteChannel c
   ∧ ¬ ∃ tank, playerTank s playerName = Some tank
         ∧ ¬ turn_pending tank c
         ∧ (0 <? Closure.forwardLength c)%float = true
         ∧ (movedLength tank c =? Closure.forwardLength c)%float = true)
  ∨ (Closure.noteChannel c' = Closure.noteChannel c ++ [reach]
     ∧ i = None
     ∧ Closure.forwardLength c' = 0%float
     ∧ ∃ tank, playerTank s playerName = Some tank
         ∧ ¬ turn_pending tank c
         ∧ (0 <? Closure.forwardLength c)%float = true
         ∧ (movedLength tank c =? Closure.forwardLength c)%float = true).
Proof.
  intros E.
  destruct (getAIInput_inv s c _ c' E)
    as [(Ht & -> & ->)
       |[(tank & d & Ht & Hd & Hne & -> & ->)
        |(tank & Ht & Hp & [(Hfl & -> & ->)
                           |[(Hfl & Hmv & -> & ->)
                            |(Hfl & Hmv & -> & ->)]])]].
  - left. split; [reflexivity|]. intros (tank & Ht' & _). congruence.
  - left. split; [reflexivity|]. intros (tank' & Ht' & Hp' & _).
    apply Hp'. assert (tank' = tank) as -> by congruence.
    unfold turn_pending. rewrite Hd. exact Hne.
  - left. split; [reflexivity|]. intros (tank' & _ & _ & Hfl' & _).
    congruence.
  - right. repeat split. exists tank. repeat split; assumption.
  - left. split; [reflexivity|]. intros (tank' & Ht' & _ & _ & Hmv').
    assert (tank' = tank) as -> by congruence. congruence.
Qed.

Lemma forward_input_bounds_aux s c d c' :
  getAIInput s c = inr (Some (forward d), c') →
  (0 <? Closure.forwardLength c)%float = true.
Proof.
  intros E.
  destruct (getAIInput_inv s c _ c' E)
    as [(_ & [=] & _)
       |[(tank & d' & _ & _ & _ & [=] & _)
        |(tank & Ht & Hp & [(_ & [=] & _)
                           |[(_ & _ & [=] & _)
                            |(Hfl & _)]])]].
  exact Hfl.
Qed.

Lemma step_idle_no_forward_input s e c o c' :
  (0 <? Closure.forwardLength c)%float = false →
  step s e c = inr (o, c') →
  ∀ d, o ≠ DirectionInput (Some (forward d)).
Proof.
  intros Hidle E d Ho. subst o.
  destruct e as [command| | |bullets]; apply step_inv in E.
  - destruct E as [[=] _].
  - destruct E as (i & [= <-] & E).
    pose proof (forward_input_bounds_aux s c d c' E). congruence.
  - destruct E as [[=] _].
  - destruct E as [[=] _].
Qed.

Lemma run_idle_no_forward_input events c :
  Forall (λ se, ¬ is_forward_command se.2) events →
  (0 <? Closure.forwardLength c)%float = false →
  Forall (λ o, ∀ d, o ≠ DirectionInput (Some (forward d)))
         (outputs (run events c)).
Proof.
  intros Hall. revert c.
  induction Hall as [|[s e] events Hnf _ IH]; intros c Hidle; [constructor|].
  simpl. destruct (step s e c) as [err|[o c']] eqn:E; [constructor|]. simpl.
  destruct (step_keeps_idle s e c o c' Hnf Hidle E) as [Hidle' _].
  constructor; [|apply IH; exact Hidle'].
  exact (step_idle_no_forward_input s e c o c' Hidle E).
Qed.

(** X5: a [forward] command whose length is not above [0] ([0], negative,
    NaN), taken with the tank present, starts nothing: until the next
    [forward] command no poll answers [forward] and no [reach] note is
    put. *)
Theorem nonpositive_forward_is_idle s c command tank :
  AICommand.type command = "forward" →
  (0 <? AICommand.forwardLength command)%float = false →
  playerTank s playerName = Some tank →
  ∃ c1,
    handleCommand s command c = inr (tt, c1)
    ∧ ∀ events,
        Forall (λ se, ¬ is_forward_command se.2) events →
        reach_count (Closure.noteChannel (final (run events c1)))
        = reach_count (Closure.noteChannel c)
        ∧ Forall (λ o, ∀ d, o ≠ DirectionInput (Some (forward d)))
                 (outputs (run events c1)).
Proof.
  intros Hty Hlen Ht. eexists. split.
  { apply handleCommand_forward; eassumption. }
  intros events Hall. split.
  - rewrite run_no_reach; [reflexivity | exact Hall | exact Hlen].
  - apply run_idle_no_forward_input; [exact Hall | exact Hlen].
Qed.

Lemma forward_commands_cons s e events :
  forward_commands ((s, e) :: events)
  = ((if decide (is_forward_command e) then 1 else 0)
     + forward_commands events)%nat.
Proof.
  unfold forward_commands. rewrite filter_cons. simpl.
  destruct (decide (is_forward_command e)); reflexivity.
Qed.

Lemma fire_commands_cons s e events :
  fire_commands ((s, e) :: events)
  = ((if decide (is_fire_command e) then 1 else 0)
     + fire_commands events)%nat.
Proof.
  unfold fire_commands. rewrite filter_cons. simpl.
  destruct (decide (is_fire_command e)); reflexivity.
Qed.

Lemma step_reach_budget s e c o c' :
  step s e c = inr (o, c') →
  (reach_count (Closure.noteChannel c') + forward_pending c'
   ≤ reach_count (Closure.noteChannel c) + forward_pending c
     + if decide (is_forward_command e) then 1 else 0)%nat.
Proof.
  intros E. apply step_inv in E. unfold forward_pending.
  assert (Hzero : (0 <? 0)%float = false) by reflexivity.
  destruct e as [command| | |bullets].
  - destruct E as [_ E].
    destruct (handleCommand_inv s command c c' E)
      as [[Hty [[_ ->]|(tank & _ & ->)]]
         |[[Hty ->]|[[Hty ->]|[Hty [->|[r ->]]]]]]; simpl;
      try rewrite reach_count_app;
      repeat first [case_decide | case_if]; simpl in *;
      try lia; try discriminate; congruence.
  - destruct E as (i & _ & E).
    destruct (getAIInput_inv s c i c' E)
      as [(_ & _ & ->)
         |[(tank & d & _ & _ & _ & _ & ->)
          |(tank & _ & _ & [(_ & _ & ->)
                           |[(Hfl & _ & _ & ->)
                            |(_ & _ & _ & ->)]])]]; simpl;
      try rewrite reach_count_app; try rewrite Hzero;
      repeat first [case_decide | case_if]; simpl in *;
      try lia; congruence.
  - destruct E as [_ ->]. destruct (Closure.fire c); simpl;
      case_if; lia.
  - destruct E as [_ E].
    destruct (notifyWhenBulletComplete_inv s bullets c c' E) as [->| ->];
      simpl; try rewrite reach_count_app;
      repeat first [case_decide | case_if]; simpl in *;
      try lia; discriminate.
Qed.

(** X6: a [forward] command buys at most one [reach].  In any run, the
    [reach] notes on the channel at the end, plus one if a forward is still
    in progress then, are at most those at the start, plus one if a forward
    was in progress then, plus the number of [forward] commands taken. *)
Theorem reach_budget events c :
  (reach_count (Closure.noteChannel (final (run events c)))
   + forward_pending (final (run events c))
   ≤ reach_count (Closure.noteChannel c) + forward_pending c
     + forward_commands events)%nat.
Proof.
  revert c. induction events as [|[s e] events IH]; intros c.
  { simpl. unfold forward_commands. simpl. lia. }
  rewrite forward_commands_cons. simpl.
  destruct (step s e c) as [err|[o c']] eqn:E; simpl; [lia|].
  pose proof (step_reach_budget s e c o c' E). specialize (IH c'). lia.
Qed.

Lemma count_true_cons b answers :
  count_true (b :: answers)
  = ((if b then 1 else 0) + count_true answers)%nat.
Proof.
  unfold count_true. rewrite filter_cons.
  destruct b; case_decide; try reflexivity; congruence.
Qed.

Lemma step_fire_budget s e c o c' :
  step s e c = inr (o, c') →
  (count_true (fire_inputs [o]) + fire_pending c'
   ≤ fire_pending c + if decide (is_fire_command e) then 1 else 0)%nat.
Proof.
  intros E. unfold fire_pending. destruct e as [command| | |bullets].
  - destruct (decide (is_fire_command (Command command))) as [Hf|Hf].
    + apply step_inv in E. destruct E as [-> _].
      destruct (Closure.fire c'), (Closure.fire c); simpl;
        unfold count_true; simpl; lia.
    + apply step_inv in E. destruct E as [-> E].
      rewrite (handleCommand_keeps_fire s command c c' Hf E).
      unfold count_true. simpl. lia.
  - apply step_inv in E. destruct E as (i & -> & E).
    rewrite (getAIInput_keeps_fire s c i c' E).
    unfold count_true. simpl. lia.
  - apply step_inv in E. destruct E as [-> ->].
    destruct (Closure.fire c) eqn:Hfire; cbn [Closure.fire Closure.set_fire];
      try rewrite Hfire.
    + change (fire_inputs [FireInput true]) with [true].
      rewrite count_true_cons. unfold count_true. simpl. lia.
    + change (fire_inputs [FireInput false]) with [false].
      rewrite count_true_cons. unfold count_true. simpl. lia.
  - apply step_inv in E. destruct E as [-> E].
    rewrite (notifyWhenBulletComplete_keeps_fire s bullets c c' E).
    unfold count_true. simpl. lia.
Qed.

(** X7: a [fire] command buys at most one shot.  In any run, the polls of
    the fire controller answered [true], plus one if the flag is still up
    at the end, are at most the [fire] commands taken, plus one if the flag
    was up at the start. *)
Theorem fire_budget events c :
  (count_true (fire_inputs (outputs (run events c)))
   + fire_pending (final (run events c))
   ≤ fire_pending c + fire_commands events)%nat.
Proof.
  revert c. induction events as [|[s e] events IH]; intros c.
  { simpl. unfold count_true, fire_commands. simpl. lia. }
  rewrite fire_commands_cons. cbn [run].
  destruct (step s e c) as [err|[o c']] eqn:E; cbn [outputs final].
  { change (count_true (fire_inputs [])) with 0%nat. lia. }
  pose proof (step_fire_budget s e c o c' E) as Hstep. specialize (IH c').
  assert (Hsplit : count_true (fire_inputs (o :: outputs (run events c')))
                   = (count_true (fire_inputs [o])
                      + count_true (fire_inputs (outputs (run events c'))))%nat).
  { destruct o as [|i|b]; try reflexivity.
    change (count_true (b :: fire_inputs (outputs (run events c')))
            = (count_true [b]
               + count_true (fire_inputs (outputs (run events c'))))%nat).
    rewrite !count_true_cons. change (count_true []) with 0%nat. lia. }
  rewrite Hsplit. lia.
Qed.

Lemma step_appends s e c o c' :
  step s e c = inr (o, c') →
  ∃ new, Closure.noteChannel c' = Closure.noteChannel c ++ new
    ∧ (length new ≤ 1)%nat.
Proof.
  intros E. apply step_inv in E.
  assert (Hsame : ∃ new, Closure.noteChannel c = Closure.noteChannel c ++ new
                    ∧ (length new ≤ 1)%nat).
  { exists []. rewrite app_nil_r. split; [reflexivity | simpl; lia]. }
  assert (Hput : ∀ n, ∃ new,
             Closure.noteChannel (Closure.put n c)
             = Closure.noteChannel c ++ new ∧ (length new ≤ 1)%nat).
  { intros n. exists [n]. split; [reflexivity | simpl; lia]. }
  destruct e as [command| | |bullets].
  - destruct E as [_ E].
    destruct (handleCommand_inv s command c c' E)
      as [[_ [[_ ->]|(tank & _ & ->)]]
         |[[_ ->]|[[_ ->]|[_ [->|[r ->]]]]]];
      first [exact Hsame | apply Hput].
  - destruct E as (i & _ & E).
    destruct (getAIInput_inv s c i c' E)
      as [(_ & _ & ->)
         |[(tank & d & _ & _ & _ & _ & ->)
          |(tank & _ & _ & [(_ & _ & ->)
                           |[(_ & _ & _ & ->)
                            |(_ & _ & _ & ->)]])]];
      first [exact Hsame | exists [reach]; split; [reflexivity|simpl; lia]].
  - destruct E as [_ ->]. destruct (Closure.fire c); exact Hsame.
  - destruct E as [_ E].
    destruct (notifyWhenBulletComplete_inv s bullets c c' E) as [->| ->];
      first [exact Hsame | apply Hput].
Qed.

(** X8: the note channel only grows at its end, by at most one note per
    event: whatever was put stays, in its place, for the whole run. *)
Theorem noteChannel_append_only events c :
  ∃ new,
    Closure.noteChannel (final (run events c))
    = Closure.noteChannel c ++ new
    ∧ (length new ≤ length (outputs (run events c)))%nat.
Proof.
  revert c. induction events as [|[s e] events IH]; intros c.
  { exists []. rewrite app_nil_r. split; [reflexivity | simpl; lia]. }
  simpl. destruct (step s e c) as [err|[o c']] eqn:E; simpl.
  { exists []. rewrite app_nil_r. split; [reflexivity | simpl; lia]. }
  destruct (step_appends s e c o c' E) as (new1 & H1 & Hlen1).
  destruct (IH c') as (new2 & H2 & Hlen2).
  exists (new1 ++ new2). rewrite H2, H1, app_assoc.
  split; [reflexivity|]. rewrite length_app. lia.
Qed.

Lemma getAIInput_returns s c : ∃ i c', getAIInput s c = inr (i, c').
Proof.
  destruct (playerTank s playerName) as [tank|] eqn:Ht.
  - destruct (decide (turn_pending tank c)) as [Hp|Hp].
    + unfold turn_pending in Hp.
      destruct (Closure.nextDirection c) as [d|] eqn:Hd; [|contradiction].
      rewrite (getAIInput_turn s c tank d Ht Hd Hp). eexists _, _. reflexivity.
    + rewrite (getAIInput_no_turn s c tank Ht Hp).
      repeat case_if; eexists _, _; reflexivity.
  - rewrite getAIInput_absent by exact Ht. eexists _, _. reflexivity.
Qed.

Lemma handleCommand_my_fire_info_absent s command c :
  AICommand.type command = "query" →
  AICommand.query command = "my-fire-info" →
  playerTank s playerName = None →
  handleCommand s command c = inl TypeError.
Proof. intros Hty Hq Ht. by_type. rewrite Ht. reflexivity. Qed.

Lemma step_survives s e c :
  survives playerTank playerName (s, e) ↔ ∃ o c', step s e c = inr (o, c').
Proof.
  unfold survives. destruct e as [command| | |bullets]; simpl.
  - split.
    + intros [Hrec Hok].
      destruct (handleCommand_recognized s command c Hrec Hok) as [c' E].
      exists Handled, c'. open_step. unfold bind. rewrite E. reflexivity.
    + intros (o & c' & E).
      apply (step_inv s (Command command) c o c') in E. destruct E as [_ E].
      split.
      * unfold recognized.
        destruct (handleCommand_inv s command c c' E)
          as [[Hty _]|[[Hty _]|[[Hty _]|[Hty _]]]]; tauto.
      * destruct (playerTank s playerName) as [tank|] eqn:Ht.
        { left. eexists. reflexivity. }
        right. intros [Hty Hq].
        rewrite (handleCommand_my_fire_info_absent s command c Hty Hq Ht) in E.
        discriminate E.
  - split; [intros _|tauto].
    destruct (getAIInput_returns s c) as (i & c' & E).
    exists (DirectionInput i), c'. open_step. unfold bind. rewrite E.
    reflexivity.
  - split; [intros _|tauto]. open_step. unfold getFireInput. eff_simpl.
    destruct (Closure.fire c); eexists _, _; reflexivity.
  - split; [intros _|tauto]. open_step. unfold notifyWhenBulletComplete.
    destruct (playerTank s playerName); [case_bool_decide|];
      eff_simpl; eexists _, _; reflexivity.
Qed.

(** X9: what ends a run.  A run answers every event, one output each, and
    ends without an exception exactly when every command in it is of a known
    type and no [query my-fire-info] finds the tank absent; the polls of the
    two controllers and the [DESTROY_BULLETS] actions never throw. *)
Theorem run_survives events c :
  (thrown (run events c) = None ↔ Forall (survives playerTank playerName) events)
  ∧ (thrown (run events c) = None →
     length (outputs (run events c)) = length events).
Proof.
  revert c. induction events as [|[s e] events IH]; intros c.
  { split; [split; [constructor | reflexivity] | reflexivity]. }
  simpl. destruct (step s e c) as [err|[o c']] eqn:E; simpl.
  - split; [split|]; try discriminate.
    intros Hall. apply Forall_cons in Hall as [Hs _].
    apply (step_survives s e c) in Hs. destruct Hs as (o & c' & E').
    congruence.
  - destruct (IH c') as [Hiff Hlen]. split.
    + rewrite Forall_cons, <- Hiff. split; [|tauto].
      intros Hok. split; [|exact Hok].
      apply (step_survives s e c). exists o, c'. exact E.
    + intros Hok. rewrite Hlen by exact Hok. reflexivity.
Qed.

(** X10: on a [DESTROY_BULLETS] action the watcher puts [bullet-complete]
    exactly when the tank exists and one of the destroyed bullets is its
    own; otherwise (tank absent, empty batch, other tanks' bullets) it does
    nothing.  Either way only the note channel can change. *)
Theorem bullet_complete_iff_own_bullet s bullets c :
  let own :=
    ∃ tank id b,
      playerTank s playerName = Some tank
      ∧ bullets !! id = Some b
      ∧ BulletRecord.tankId b = TankRecord.tankId tank in
  (own →
   notifyWhenBulletComplete playerTank playerName s bullets c
   = inr (tt, Closure.put bullet_complete c))
  ∧ (¬ own →
     notifyWhenBulletComplete playerTank playerName s bullets c
     = inr (tt, c)).
Proof.
  intros own. unfold notifyWhenBulletComplete.
  destruct (playerTank s playerName) as [tank|] eqn:Ht.
  - assert (Hiff : Exists (λ b, BulletRecord.tankId b = TankRecord.tankId tank)
                          (map_to_list bullets).*2 ↔ own).
    { rewrite Exists_exists. split.
      - intros (b & Hin & Hb). apply list_elem_of_fmap in Hin.
        destruct Hin as ([id b'] & -> & Hin).
        apply elem_of_map_to_list in Hin.
        exists tank, id, b'. repeat split; assumption.
      - intros (tank' & id & b & [= <-] & Hl & Hb). exists b.
        split; [|exact Hb]. apply list_elem_of_fmap. exists (id, b).
        split; [reflexivity|]. apply elem_of_map_to_list. exact Hl. }
    split; intros Hown.
    + rewrite bool_decide_eq_true_2 by (apply Hiff; exact Hown). reflexivity.
    + rewrite bool_decide_eq_false_2 by (rewrite Hiff; exact Hown).
      reflexivity.
  - split; [|reflexivity]. intros (tank & _ & _ & [=] & _).
Qed.

Lemma step_no_turn_input s e c o c' :
  ¬ is_turn_command e →
  Closure.nextDirection c = None →
  step s e c = inr (o, c') →
  Closure.nextDirection c' = None
  ∧ ∀ d, o ≠ DirectionInput (Some (turn d)).
Proof.
  intros Hnt Hnone E. apply step_inv in E.
  destruct e as [command| | |bullets]; simpl in Hnt.
  - destruct E as [-> E]. split; [|discriminate].
    destruct (handleCommand_inv s command c c' E)
      as [[_ [[_ ->]|(tank & _ & ->)]]
         |[[_ ->]|[[Hty _]|[_ [->|[r ->]]]]]];
      first [exact Hnone | contradiction].
  - destruct E as (i & -> & E).
    destruct (getAIInput_inv s c i c' E)
      as [(_ & -> & ->)
         |[(tank & d & _ & Hd & _)
          |(tank & _ & _ & [(_ & -> & ->)
                           |[(_ & _ & -> & ->)
                            |(_ & _ & -> & ->)]])]];
      try (split; [exact Hnone | discriminate]).
    congruence.
  - destruct E as [-> ->]. split; [|discriminate].
    destruct (Closure.fire c); exact Hnone.
  - destruct E as [-> E]. split; [|discriminate].
    destruct (notifyWhenBulletComplete_inv s bullets c c' E) as [->| ->];
      exact Hnone.
Qed.

(** X11: with no direction pending, no poll answers [turn] until a [turn]
    command is taken: a direction asked for once is handed over at most
    once. *)
Theorem no_turn_without_command events c :
  Closure.nextDirection c = None →
  Forall (λ se, ¬ is_turn_command se.2) events →
  Closure.nextDirection (final (run events c)) = None
  ∧ Forall (λ o, ∀ d, o ≠ DirectionInput (Some (turn d)))
           (outputs (run events c)).
Proof.
  intros Hnone Hall. revert c Hnone.
  induction Hall as [|[s e] events Hnt _ IH]; intros c Hnone.
  { split; [exact Hnone | constructor]. }
  simpl. destruct (step s e c) as [err|[o c']] eqn:E; simpl.
  { split; [exact Hnone | constructor]. }
  destruct (step_no_turn_input s e c o c' Hnt Hnone E) as [Hnone' Ho].
  destruct (IH c' Hnone') as [Hfin Houts].
  split; [exact Hfin|]. constructor; [exact Ho | exact Houts].
Qed.

(** X12: a [query] command only reads.  Handled, it leaves [fire],
    [nextDirection], [forwardLength] and [startPos] as they were and puts
    at most one note, a [query-result]; it throws only as
    [query my-fire-info] with the tank absent, and then a [TypeError]. *)
Theorem query_only_reads s command c :
  AICommand.type command = "query" →
  match handleCommand s command c with
  | inr (_, c') =>
    Closure.fire c' = Closure.fire c
    ∧ Closure.nextDirection c' = Closure.nextDirection c
    ∧ Closure.forwardLength c' = Closure.forwardLength c
    ∧ Closure.startPos c' = Closure.startPos c
    ∧ (Closure.noteChannel c' = Closure.noteChannel c
       ∨ ∃ r, Closure.noteChannel c'
              = Closure.noteChannel c ++ [query_result r])
  | inl err =>
    err = TypeError
    ∧ AICommand.query command = "my-fire-info"
    ∧ playerTank s playerName = None
  end.
Proof.
  intros Hty.
  destruct (handleCommand s command c) as [err|[[] c']] eqn:E.
  - destruct (decide (AICommand.query command = "my-fire-info")) as [Hq|Hq].
    + destruct (playerTank s playerName) as [tank|] eqn:Ht.
      * destruct (handleCommand_recognized s command c) as [c' E'].
        { unfold recognized. tauto. }
        { left. eexists. exact Ht. }
        congruence.
      * rewrite (handleCommand_my_fire_info_absent s command c Hty Hq Ht) in E.
        injection E as <-. repeat split. exact Hq.
    + destruct (handleCommand_recognized s command c) as [c' E'].
      { unfold recognized. tauto. }
      { right. tauto. }
      congruence.
  - destruct (handleCommand_query s command c c' Hty E) as [->|[r ->]].
    + repeat split. left. reflexivity.
    + repeat split. right. exists r. reflexivity.
Qed.

End handleCommands_properties.

(** ** Properties of [AIMasterSaga] *)

Section AIMasterSaga_properties.

Variable reducer : State.t → Action → State.t.
Variable availableSpawnPosition : State.t → float * float.
Variable spawnTank : TankRecord.t → State.t → TankId * State.t.
Variable TankRecord_defaults : TankRecord.t.

Local Abbreviation addAI :=
  (addAI reducer availableSpawnPosition spawnTank TankRecord_defaults).
Local Abbreviation masterStep :=
  (masterStep reducer availableSpawnPosition spawnTank TankRecord_defaults).

Lemma addAI_empty_pool m :
  State.remainingEnemies (Master.store m) = [] → addAI m = inr (tt, m).
Proof. intros Hpool. open_addAI. eff_simpl. rewrite Hpool. reflexivity. Qed.

(** With an enemy left, [addAI] takes the next index, spawns one task for the
    new name, registers it under that name and touches no other entry. *)
Lemma addAI_spawns m :
  State.remainingEnemies (Master.store m) ≠ [] →
  let playerName := "AI-" +:+ pretty (Master.nextAIPlayerIndex m) in
  ∃ m',
    addAI m = inr (tt, m')
    ∧ Master.spawned m' = Master.spawned m ++ [playerName]
    ∧ Master.taskMap m'
      = <[playerName := length (Master.spawned m)]> (Master.taskMap m)
    ∧ Master.nextAIPlayerIndex m' = S (Master.nextAIPlayerIndex m)
    ∧ Master.cancelled m' = Master.cancelled m.
Proof.
  intros Hpool playerName. open_addAI. eff_simpl.
  destruct (State.remainingEnemies (Master.store m)) as [|level rest];
    [contradiction|].
  eexists. split; [reflexivity|]. simpl. repeat split.
Qed.

Lemma cancelAll_spec entries m :
  ∃ m',
    cancelAll entries m = inr (tt, m')
    ∧ (∀ k, Master.taskMap m' !! k
            = if decide (k ∈ entries.*1) then None else Master.taskMap m !! k)
    ∧ Master.cancelled m' = list_to_set entries.*2 ∪ Master.cancelled m
    ∧ Master.store m' = Master.store m
    ∧ Master.nextAIPlayerIndex m' = Master.nextAIPlayerIndex m
    ∧ Master.spawned m' = Master.spawned m
    ∧ Master.dispatched m' = Master.dispatched m.
Proof.
  revert m. induction entries as [|[playerName task] entries IH]; intros m.
  - exists m. split; [reflexivity|]. split.
    + intros k. rewrite decide_False; [reflexivity|]. apply not_elem_of_nil.
    + split; [|repeat split]. rewrite fmap_nil, list_to_set_nil.
      symmetry. apply (left_id_L ∅ (∪)).
  - cbn [cancelAll]. eff_simpl.
    destruct (IH (Master.set_taskMap (delete playerName (Master.taskMap m))
                    (Master.cancel task m)))
      as (m' & E & Hmap & Hc & Hs & Hn & Hsp & Hd).
    exists m'. split; [exact E|]. split.
    + intros k. rewrite Hmap, fmap_cons.
      cbn [fst Master.taskMap Master.set_taskMap Master.cancel].
      destruct (decide (k = playerName)) as [->|Hne].
      * rewrite lookup_delete_eq.
        rewrite (decide_True (P := playerName ∈ playerName :: entries.*1))
          by apply list_elem_of_here.
        case_decide; reflexivity.
      * rewrite lookup_delete_ne by congruence.
        destruct (decide (k ∈ entries.*1)) as [Hin|Hin].
        -- rewrite decide_True by (apply list_elem_of_further; exact Hin).
           reflexivity.
        -- rewrite decide_False; [reflexivity|].
           rewrite elem_of_cons. tauto.
    + rewrite Hc, Hs, Hn, Hsp, Hd. split; [|repeat split].
      rewrite fmap_cons, list_to_set_cons.
      cbn [snd Master.cancelled Master.cancel Master.set_taskMap].
      rewrite (assoc_L (∪)), (comm_L (∪) (list_to_set entries.*2)).
      reflexivity.
Qed.

(** C7: on [KILL] of an AI tank whose player is registered, the master
    cancels the task registered for that player, deletes the player from
    [taskMap] and then runs [addAI] exactly once.  With no enemy left,
    nothing is spawned and [taskMap] is the old one less that player, one
    entry smaller; with an enemy left, exactly one task is spawned, for the
    next AI name, and registered under it. *)
Theorem kill_replaces_session m targetTank targetPlayer task :
  TankRecord.side targetTank = "ai" →
  Master.taskMap m !! PlayerRecord.playerName targetPlayer = Some task →
  let name := PlayerRecord.playerName targetPlayer in
  let m1 := Master.set_taskMap (delete name (Master.taskMap m))
                               (Master.cancel task m) in
  masterStep (KILL targetTank targetPlayer) m = addAI m1
  ∧ task ∈ Master.cancelled m1
  ∧ Master.taskMap m1 !! name = None
  ∧ (State.remainingEnemies (Master.store m) = [] →
     masterStep (KILL targetTank targetPlayer) m = inr (tt, m1)
     ∧ Master.spawned m1 = Master.spawned m
     ∧ S (size (Master.taskMap m1)) = size (Master.taskMap m))
  ∧ (State.remainingEnemies (Master.store m) ≠ [] →
     let newName := "AI-" +:+ pretty (Master.nextAIPlayerIndex m) in
     ∃ m',
       masterStep (KILL targetTank targetPlayer) m = inr (tt, m')
       ∧ Master.spawned m' = Master.spawned m ++ [newName]
       ∧ Master.taskMap m'
         = <[newName := length (Master.spawned m)]>
             (delete name (Master.taskMap m))
       ∧ Master.nextAIPlayerIndex m' = S (Master.nextAIPlayerIndex m)
       ∧ task ∈ Master.cancelled m'
       ∧ (newName ≠ name → Master.taskMap m' !! name = None)).
Proof.
  intros Hside Htask name m1.
  assert (E : masterStep (KILL targetTank targetPlayer) m = addAI m1).
  { open_masterStep. rewrite decide_True by exact Hside.
    unfold bind at 1, gets at 1. rewrite Htask. reflexivity. }
  split; [exact E|].
  split; [apply elem_of_union_l, elem_of_singleton; reflexivity|].
  split; [apply lookup_delete_eq|]. split.
  - intros Hpool. rewrite E. split; [apply addAI_empty_pool; exact Hpool|].
    split; [reflexivity|]. subst m1 name.
    cbn [Master.taskMap Master.set_taskMap Master.cancel].
    rewrite map_size_delete, Htask.
    pose proof (map_size_ne_0_lookup_2 (Master.taskMap m) _
                  (mk_is_Some _ _ Htask)).
    simpl. lia.
  - intros Hpool newName.
    destruct (addAI_spawns m1 Hpool) as (m' & E' & Hsp & Hmap & Hn & Hc).
    exists m'. rewrite E. split; [exact E'|].
    split; [exact Hsp|]. split; [exact Hmap|]. split; [exact Hn|].
    split; [rewrite Hc; apply elem_of_union_l, elem_of_singleton; reflexivity|].
    intros Hne. rewrite Hmap. simpl. rewrite lookup_insert_ne by exact Hne.
    apply lookup_delete_eq.
Qed.

(** C8: on [GAMEOVER] the master calls [cancel()] on every task registered
    in [taskMap] and ends with [taskMap] empty; nothing is spawned. *)
Theorem gameover_clears_registry m :
  ∃ m',
    masterStep GAMEOVER m = inr (tt, m')
    ∧ Master.taskMap m' = ∅
    ∧ (∀ name task,
         Master.taskMap m !! name = Some task → task ∈ Master.cancelled m')
    ∧ (∀ name, Master.taskMap m' !! name = None)
    ∧ Master.spawned m' = Master.spawned m.
Proof.
  destruct (cancelAll_spec (map_to_list (Master.taskMap m)) m)
    as (m' & E & Hmap & Hc & _ & _ & Hsp & _).
  assert (Hempty : Master.taskMap m' = ∅).
  { apply map_eq. intros k. rewrite Hmap, lookup_empty.
    case_decide as Hin; [reflexivity|].
    destruct (Master.taskMap m !! k) as [task|] eqn:Hk; [|reflexivity].
    exfalso. apply Hin. apply list_elem_of_fmap.
    exists (k, task). split; [reflexivity|].
    apply elem_of_map_to_list. exact Hk. }
  exists m'. split; [exact E|]. split; [exact Hempty|]. split; [|split].
  - intros name task Hk. rewrite Hc. apply elem_of_union_l.
    apply elem_of_list_to_set. apply list_elem_of_fmap.
    exists (name, task). split; [reflexivity|].
    apply elem_of_map_to_list. exact Hk.
  - intros name. rewrite Hempty. apply lookup_empty.
  - exact Hsp.
Qed.

(** *** The registry across a whole run *)

Local Abbreviation masterRun :=
  (masterRun reducer availableSpawnPosition spawnTank TankRecord_defaults).

Lemma AI_name_inj i j : AI_name i = AI_name j → i = j.
Proof.
  unfold AI_name. intros H. simpl in H. injection H as H.
  exact (pretty_nat_inj _ _ H).
Qed.

Lemma registry_wf_length m :
  registry_wf m → length (Master.spawned m) = Master.nextAIPlayerIndex m.
Proof. intros (Hsp & _). rewrite Hsp, length_fmap, length_seq. reflexivity. Qed.

Lemma registry_wf_spawned m task name :
  registry_wf m →
  Master.spawned m !! task = Some name →
  name = AI_name task ∧ task < Master.nextAIPlayerIndex m.
Proof.
  intros (Hsp & _) Hl. rewrite Hsp, list_lookup_fmap in Hl.
  destruct (seq 0 (Master.nextAIPlayerIndex m) !! task) as [j|] eqn:Hj;
    [|discriminate].
  apply lookup_seq in Hj as [-> Hlt]. injection Hl as <-. split; [reflexivity | exact Hlt].
Qed.

(** The name [addAI] is about to give out is not in the registry. *)
Lemma registry_wf_fresh m :
  registry_wf m →
  Master.taskMap m !! AI_name (Master.nextAIPlayerIndex m) = None.
Proof.
  intros Hwf.
  destruct (Master.taskMap m !! AI_name (Master.nextAIPlayerIndex m))
    as [task|] eqn:Hl; [|reflexivity].
  exfalso. destruct Hwf as (Hsp & Hreg & Hrest).
  destruct (Hreg _ _ Hl) as [Hspawned _].
  destruct (registry_wf_spawned m task _ (conj Hsp (conj Hreg Hrest)) Hspawned)
    as [Hname Hlt].
  apply AI_name_inj in Hname. lia.
Qed.

Lemma registry_wf_set_store s m : registry_wf m → registry_wf (Master.set_store s m).
Proof. intros H. exact H. Qed.

Lemma addAI_keeps_wf m m' :
  registry_wf m → addAI m = inr (tt, m') → registry_wf m'.
Proof.
  intros Hwf E.
  destruct (State.remainingEnemies (Master.store m)) as [|level rest] eqn:Hpool.
  { rewrite addAI_empty_pool in E by exact Hpool. injection E as <-.
    exact Hwf. }
  destruct (addAI_spawns m) as (m1 & E1 & Hsp1 & Hmap1 & Hn1 & Hc1).
  { rewrite Hpool. discriminate. }
  rewrite E1 in E. injection E as <-.
  pose proof (registry_wf_length m Hwf) as Hlen.
  pose proof (registry_wf_fresh m Hwf) as Hfresh.
  pose proof Hwf as (Hsp & Hreg & Hall & Hcan).
  fold (AI_name (Master.nextAIPlayerIndex m)) in Hsp1, Hmap1.
  split; [|split; [|split]].
  - rewrite Hsp1, Hn1, seq_S, fmap_app, <- Hsp. reflexivity.
  - intros name task Hl. rewrite Hmap1 in Hl. rewrite Hsp1, Hc1.
    destruct (decide (AI_name (Master.nextAIPlayerIndex m) = name)) as [<-|Hne].
    + rewrite lookup_insert_eq in Hl. injection Hl as <-. split.
      * rewrite lookup_app_r by lia. rewrite Nat.sub_diag. reflexivity.
      * intros Hin. apply Hcan in Hin. lia.
    + rewrite lookup_insert_ne in Hl by exact Hne.
      destruct (Hreg _ _ Hl) as [Hs Hnc]. split; [|exact Hnc].
      apply lookup_app_l_Some. exact Hs.
  - intros task name Hl. rewrite Hsp1 in Hl. rewrite Hmap1, Hc1.
    destruct (decide (task < length (Master.spawned m))) as [Hlt|Hge].
    + rewrite lookup_app_l in Hl by exact Hlt.
      destruct (Hall _ _ Hl) as [Hr|Hcn]; [|right; exact Hcn].
      left. rewrite lookup_insert_ne; [exact Hr|].
      intros Heq. subst name.
      discriminate (eq_trans (eq_sym Hr) Hfresh).
    + rewrite lookup_app_r in Hl by lia.
      destruct (task - length (Master.spawned m)) as [|k] eqn:Hk;
        [|destruct k; discriminate].
      injection Hl as <-. left.
      assert (task = length (Master.spawned m)) as -> by lia.
      apply lookup_insert_eq.
  - intros task Hin. rewrite Hc1 in Hin. rewrite Hsp1, length_app. simpl.
    apply Hcan in Hin. lia.
Qed.

Lemma masterStep_keeps_wf action m m' :
  registry_wf m → masterStep action m = inr (tt, m') → registry_wf m'.
Proof.
  intros Hwf E. pose proof Hwf as (Hsp & Hreg & Hall & Hcan).
  destruct action as [|targetTank targetPlayer| | | |];
    try (injection E as <-; exact Hwf).
  - (* LOAD_STAGE *)
    open_masterStep in E. unfold max in E. simpl in E. unfold bind at 1 in E.
    destruct (addAI m) as [|[[] m1]] eqn:E1; [discriminate|].
    injection E as <-. exact (addAI_keeps_wf m m1 Hwf E1).
  - (* KILL *)
    open_masterStep in E.
    destruct (decide (TankRecord.side targetTank = "ai"));
      [|injection E as <-; exact Hwf].
    unfold bind at 1, gets at 1 in E.
    destruct (Master.taskMap m !! PlayerRecord.playerName targetPlayer)
      as [task|] eqn:Hl; [|discriminate].
    unfold bind at 1, modify at 1 in E. unfold bind at 1, modify at 1 in E.
    refine (addAI_keeps_wf _ m' _ E).
    destruct (Hreg _ _ Hl) as [Hs Hnc].
    split; [exact Hsp|]. split; [|split]; simpl.
    + intros name task' Hl'.
      destruct (decide (PlayerRecord.playerName targetPlayer = name))
        as [<-|Hne].
      { rewrite lookup_delete_eq in Hl'. discriminate. }
      rewrite lookup_delete_ne in Hl' by exact Hne.
      destruct (Hreg _ _ Hl') as [Hs' Hnc']. split; [exact Hs'|].
      rewrite elem_of_union, elem_of_singleton. intros [->|Hin];
        [congruence | contradiction].
    + intros task' name Hs'.
      destruct (decide (PlayerRecord.playerName targetPlayer = name))
        as [<-|Hne].
      * right. destruct (Hall _ _ Hs') as [Hr|Hcn].
        -- pose proof (eq_trans (eq_sym Hl) Hr) as Heq. injection Heq as <-.
           apply elem_of_union_l, elem_of_singleton. reflexivity.
        -- apply elem_of_union_r. exact Hcn.
      * rewrite lookup_delete_ne by exact Hne.
        destruct (Hall _ _ Hs') as [Hr|Hcn]; [left; exact Hr|].
        right. apply elem_of_union_r. exact Hcn.
    + intros task' Hin. apply elem_of_union in Hin as [Hin|Hin].
      * apply elem_of_singleton in Hin as ->. exact (lookup_lt_Some _ _ _ Hs).
      * exact (Hcan _ Hin).
  - (* GAMEOVER *)
    open_masterStep in E. unfold bind at 1, gets at 1 in E.
    destruct (cancelAll_spec (map_to_list (Master.taskMap m)) m)
      as (m1 & E1 & Hmap & Hc & _ & Hn & Hsp1 & _).
    rewrite E1 in E. injection E as <-.
    assert (Hin : ∀ name task,
              Master.taskMap m !! name = Some task →
              task ∈ (map_to_list (Master.taskMap m)).*2).
    { intros name task Hl. apply list_elem_of_fmap. exists (name, task).
      split; [reflexivity|]. apply elem_of_map_to_list. exact Hl. }
    split; [rewrite Hsp1, Hn; exact Hsp|]. split; [|split].
    + intros name task Hl. rewrite Hmap in Hl. exfalso.
      case_decide as Hk; [discriminate|]. apply Hk.
      apply list_elem_of_fmap. exists (name, task). split; [reflexivity|].
      apply elem_of_map_to_list. exact Hl.
    + intros task name Hs. rewrite Hsp1 in Hs. right. rewrite Hc.
      destruct (Hall _ _ Hs) as [Hr|Hcn].
      * apply elem_of_union_l, elem_of_list_to_set. exact (Hin _ _ Hr).
      * apply elem_of_union_r. exact Hcn.
    + intros task Hin'. rewrite Hc in Hin'. rewrite Hsp1.
      apply elem_of_union in Hin' as [Hin'|Hin']; [|exact (Hcan _ Hin')].
      apply elem_of_list_to_set, list_elem_of_fmap in Hin'.
      destruct Hin' as ([name task'] & -> & Hin').
      apply elem_of_map_to_list in Hin'.
      destruct (Hreg _ _ Hin') as [Hs _]. exact (lookup_lt_Some _ _ _ Hs).
Qed.

(** X13: the registry and the tasks stay in step over any run of the
    master.  If they agree at the start (as they do when the master starts,
    with nothing spawned), they agree at the end, whether the run ended
    normally or by an exception: the sessions spawned are those of [AI-0],
    [AI-1], ... in order, a name is never given twice, every registered
    task is the one spawned for its name and has not been cancelled, and
    every task ever spawned is either still registered or was cancelled, so
    no session is left running unregistered. *)
Theorem registry_wf_invariant events m :
  registry_wf m →
  registry_wf (master_final (masterRun events m)).
Proof.
  revert m. induction events as [|[s action] events IH]; intros m Hwf;
    [exact Hwf|].
  simpl.
  destruct (masterStep action (Master.set_store s m)) as [err|[[] m']] eqn:E.
  - exact Hwf.
  - apply IH. apply (masterStep_keeps_wf action (Master.set_store s m) m');
      [exact Hwf | exact E].
Qed.

Lemma masterStep_kill m targetTank targetPlayer task :
  TankRecord.side targetTank = "ai" →
  Master.taskMap m !! PlayerRecord.playerName targetPlayer = Some task →
  masterStep (KILL targetTank targetPlayer) m
  = addAI (Master.set_taskMap
             (delete (PlayerRecord.playerName targetPlayer) (Master.taskMap m))
             (Master.cancel task m)).
Proof.
  intros Hside Htask. open_masterStep. rewrite decide_True by exact Hside.
  unfold bind at 1, gets at 1. rewrite Htask. reflexivity.
Qed.

(** X14: replacing a killed AI keeps the population.  From a registry in
    step with the tasks, a [KILL] of a registered AI player with an enemy
    left ends with as many registered sessions as before: the killed
    player's entry is gone, the next AI name, never used before, is
    registered with the newly spawned task, and every other entry is
    untouched. *)
Theorem kill_keeps_population m targetTank targetPlayer task :
  registry_wf m →
  TankRecord.side targetTank = "ai" →
  Master.taskMap m !! PlayerRecord.playerName targetPlayer = Some task →
  State.remainingEnemies (Master.store m) ≠ [] →
  let name := PlayerRecord.playerName targetPlayer in
  let newName := AI_name (Master.nextAIPlayerIndex m) in
  ∃ m',
    masterStep (KILL targetTank targetPlayer) m = inr (tt, m')
    ∧ size (Master.taskMap m') = size (Master.taskMap m)
    ∧ newName ≠ name
    ∧ Master.taskMap m !! newName = None
    ∧ Master.taskMap m' !! name = None
    ∧ Master.taskMap m' !! newName = Some (length (Master.spawned m))
    ∧ ∀ other, other ≠ name → other ≠ newName →
        Master.taskMap m' !! other = Master.taskMap m !! other.
Proof.
  intros Hwf Hside Htask Hpool name newName.
  pose proof (registry_wf_fresh m Hwf) as Hfresh. fold newName in Hfresh.
  assert (Hne : newName ≠ name).
  { intros Heq. rewrite Heq in Hfresh.
    discriminate (eq_trans (eq_sym Htask) Hfresh). }
  rewrite (masterStep_kill m targetTank targetPlayer task Hside Htask).
  destruct (addAI_spawns
              (Master.set_taskMap (delete name (Master.taskMap m))
                                  (Master.cancel task m)) Hpool)
    as (m' & E & _ & Hmap & _).
  cbn [Master.taskMap Master.set_taskMap Master.cancel Master.spawned
       Master.nextAIPlayerIndex] in Hmap.
  fold (AI_name (Master.nextAIPlayerIndex m)) in Hmap. fold newName in Hmap.
  exists m'. split; [exact E|]. rewrite Hmap.
  split; [|split; [exact Hne|split; [exact Hfresh|split; [|split]]]].
  - rewrite map_size_insert_None
      by (rewrite lookup_delete_ne by congruence; exact Hfresh).
    rewrite (map_size_delete_Some name (Master.taskMap m))
      by exact (mk_is_Some _ _ Htask).
    pose proof (map_size_ne_0_lookup_2 (Master.taskMap m) name
                  (mk_is_Some _ _ Htask)).
    lia.
  - rewrite lookup_insert_ne by exact Hne. apply lookup_delete_eq.
  - apply lookup_insert_eq.
  - intros other Ho1 Ho2. rewrite lookup_insert_ne by congruence.
    apply lookup_delete_ne. congruence.
Qed.

(** X15: [LOAD_STAGE] never clears the registry.  With no enemy left it
    changes nothing; with one left it adds exactly one session, under the
    next AI name, to a registry in step with the tasks, keeps every entry
    that was there and cancels nothing, so the registry is one larger. *)
Theorem load_stage_adds_session m :
  registry_wf m →
  (State.remainingEnemies (Master.store m) = [] →
   masterStep LOAD_STAGE m = inr (tt, m))
  ∧ (State.remainingEnemies (Master.store m) ≠ [] →
     ∃ m',
       masterStep LOAD_STAGE m = inr (tt, m')
       ∧ size (Master.taskMap m') = S (size (Master.taskMap m))
       ∧ Master.taskMap m' !! AI_name (Master.nextAIPlayerIndex m)
         = Some (length (Master.spawned m))
       ∧ (∀ name task,
            Master.taskMap m !! name = Some task →
            Master.taskMap m' !! name = Some task)
       ∧ Master.cancelled m' = Master.cancelled m
       ∧ Master.spawned m'
         = Master.spawned m ++ [AI_name (Master.nextAIPlayerIndex m)]).
Proof.
  intros Hwf.
  assert (Hstep : masterStep LOAD_STAGE m
                  = bind addAI (λ _, ret tt) m) by reflexivity.
  split.
  - intros Hpool. rewrite Hstep. unfold bind.
    rewrite addAI_empty_pool by exact Hpool. reflexivity.
  - intros Hpool. pose proof (registry_wf_fresh m Hwf) as Hfresh.
    destruct (addAI_spawns m Hpool) as (m' & E & Hsp & Hmap & _ & Hc).
    fold (AI_name (Master.nextAIPlayerIndex m)) in Hsp, Hmap.
    exists m'. rewrite Hstep. unfold bind. rewrite E.
    split; [reflexivity|]. rewrite Hmap.
    split; [apply map_size_insert_None; exact Hfresh|].
    split; [apply lookup_insert_eq|].
    split; [|split; [exact Hc | exact Hsp]].
    intros name task Hl. rewrite lookup_insert_ne; [exact Hl|].
    intros Heq. rewrite <- Heq in Hl.
    discriminate (eq_trans (eq_sym Hl) Hfresh).
Qed.

(** X16: a [KILL] of an AI tank whose player has no entry in the registry
    makes the master throw: it calls [cancel] on [undefined].  After
    [GAMEOVER] has emptied the registry this is what any such [KILL] does,
    and the master saga ends there. *)
Theorem kill_unregistered_throws m targetTank targetPlayer :
  TankRecord.side targetTank = "ai" →
  (Master.taskMap m !! PlayerRecord.playerName targetPlayer = None →
   masterStep (KILL targetTank targetPlayer) m = inl TypeError)
  ∧ ∀ s1 s2 events,
      master_thrown
        (masterRun ((s1, GAMEOVER) :: (s2, KILL targetTank targetPlayer)
                    :: events) m)
      = Some TypeError.
Proof.
  intros Hside.
  assert (Hthrow : ∀ m0,
            Master.taskMap m0 !! PlayerRecord.playerName targetPlayer = None →
            masterStep (KILL targetTank targetPlayer) m0 = inl TypeError).
  { intros m0 Hl. open_masterStep. rewrite decide_True by exact Hside.
    unfold bind at 1, gets at 1. rewrite Hl. reflexivity. }
  split; [apply Hthrow|]. intros s1 s2 events.
  open_masterRun.
  destruct (cancelAll_spec (map_to_list (Master.taskMap m))
              (Master.set_store s1 m))
    as (m1 & E1 & Hmap & _).
  assert (Hgo : masterStep GAMEOVER (Master.set_store s1 m) = inr (tt, m1)).
  { exact E1. }
  rewrite Hgo. rewrite Hthrow; [reflexivity|].
  rewrite Hmap. cbn [Master.taskMap Master.set_store].
  case_decide as Hin; [reflexivity|].
  destruct (Master.taskMap m !! PlayerRecord.playerName targetPlayer)
    as [task|] eqn:Hl; [|reflexivity].
  exfalso. apply Hin. apply list_elem_of_fmap.
  exists (PlayerRecord.playerName targetPlayer, task).
  split; [reflexivity|]. apply elem_of_map_to_list. exact Hl.
Qed.

End AIMasterSaga_properties.

(** ** The claims on concrete runs *)

(** [forward 5] taken at [y = 10], then polls at [y = 10], [y = 7] and twice
    at [y = 5]. *)
Example forward_run :
  run playerTank_demo "AI-0"
    [(store_at 10 Direction.up, Command (forward_command 5));
     (store_at 10 Direction.up, PollDirection);
     (store_at 7 Direction.up, PollDirection);
     (store_at 5 Direction.up, PollDirection);
     (store_at 5 Direction.up, PollDirection)]
    Closure.init
  = {| outputs := [Handled; DirectionInput (Some (forward 5));
                   DirectionInput (Some (forward 2)); DirectionInput None;
                   DirectionInput None];
       final := Closure.mk false None 0 10 [reach];
       thrown := None |}.
Proof. vm_compute. reflexivity. Qed.

(** Where the floats round, the run rounds with them.  [forward 2^54] taken
    at [y = 10] and polled at [y = 9] answers [forward 2^54], since
    [2^54 - 1] is not a float; [forward 2^53] taken at [y = -2^53] and
    polled at [y = 1] finds the distance [2^53] and puts [reach]. *)
Example rounding_run :
  outputs (run playerTank_demo "AI-0"
             [(store_at 10 Direction.up,
               Command (forward_command 18014398509481984));
              (store_at 9 Direction.up, PollDirection)]
             Closure.init)
  = [Handled; DirectionInput (Some (forward 18014398509481984))]
  ∧ run playerTank_demo "AI-0"
      [(store_at (-9007199254740992) Direction.up,
        Command (forward_command 9007199254740992));
       (store_at 1 Direction.up, PollDirection)]
      Closure.init
    = {| outputs := [Handled; DirectionInput None];
         final := Closure.mk false None 0 (-9007199254740992) [reach];
         thrown := None |}.
Proof. split; vm_compute; reflexivity. Qed.



(** C2, witness: two bullets in flight, one the tank's own and one of
    another tank, bullet limit [1], cooldown [0]: the count is [1] and the
    result says [canFire = false]. *)
Lemma my_fire_info_canFire_witness :
  AICommand.type (query_command "my-fire-info") = "query"
  ∧ AICommand.query (query_command "my-fire-info") = "my-fire-info"
  ∧ playerTank_demo store_two_bullets "AI-0"
    = Some (tank_demo 0 0 Direction.up)
  ∧ handleCommand playerTank_demo "AI-0" store_two_bullets
      (query_command "my-fire-info") Closure.init
    = inr (tt, Closure.put
                 (query_result (my_fire_info 1 false (Some 0%float) 1))
                 Closure.init).
Proof.
  split; [reflexivity|]. split; [reflexivity|]. split; [reflexivity|].
  destruct (my_fire_info_canFire playerTank_demo "AI-0" store_two_bullets
              Closure.init (query_command "my-fire-info")
              (tank_demo 0 0 Direction.up) eq_refl eq_refl eq_refl)
    as (owned & canFire & Hown & E & _ & Hfull & _).
  assert (Howned : owned = {[ 0%nat ]}).
  { apply set_eq. intros id. rewrite Hown, elem_of_singleton. split.
    - intros (b & Hl & Hb). unfold store_two_bullets in Hl. simpl in Hl.
      apply lookup_insert_Some in Hl as [[<- _]|[_ Hl]]; [reflexivity|].
      apply lookup_singleton_Some in Hl as [_ <-]. discriminate Hb.
    - intros ->. exists (BulletRecord.mk 0 0). split; reflexivity. }
  subst owned. rewrite size_singleton in E, Hfull.
  rewrite E, (Hfull eq_refl). reflexivity.
Defined.

(** With no bullet in flight and the cooldown at [0], [canFire] is [true];
    with the cooldown still running it is [false]; a bullet of another tank
    does not count. *)
Example my_fire_info_run :
  handleCommand playerTank_demo "AI-0" (store_at 0 Direction.up)
    (query_command "my-fire-info") Closure.init
  = inr (tt, Closure.put (query_result (my_fire_info 0 true (Some 0%float) 1))
               Closure.init)
  ∧ handleCommand playerTank_demo "AI-0"
      (store_with (Some (tank_demo 0 0 Direction.up)) [] 0.5 [])
      (query_command "my-fire-info") Closure.init
    = inr (tt, Closure.put
                 (query_result (my_fire_info 0 false (Some 0.5%float) 1))
                 Closure.init)
  ∧ handleCommand playerTank_demo "AI-0"
      (store_with (Some (tank_demo 0 0 Direction.up))
                  [BulletRecord.mk 0 1; BulletRecord.mk 1 2] 0 [])
      (query_command "my-fire-info") Closure.init
    = inr (tt, Closure.put (query_result (my_fire_info 0 true (Some 0%float) 1))
                 Closure.init).
Proof. repeat split; vm_compute; reflexivity. Qed.

(** C3, witness: [turn left] while [forward 5] is in progress and the tank
    faces up; the next poll answers [turn left], the forward is gone, and
    the tank coming to rest 5 away from the start brings no [reach]. *)
Lemma turn_clears_forward_witness :
  (0 <? Closure.forwardLength closure_forward5)%float = true
  ∧ AICommand.type (turn_command Direction.left) = "turn"
  ∧ ∃ c1 c2,
      handleCommand playerTank_demo "AI-0" (store_at 10 Direction.up)
        (turn_command Direction.left) closure_forward5 = inr (tt, c1)
      ∧ getAIInput playerTank_demo "AI-0" (store_at 8 Direction.up) c1
        = inr (Some (turn Direction.left), c2)
      ∧ Closure.forwardLength c2 = 0%float
      ∧ reach_count
          (Closure.noteChannel
             (final (run playerTank_demo "AI-0"
                       [(store_at 5 Direction.left, PollDirection);
                        (store_at 5 Direction.up, PollDirection);
                        (store_at 5 Direction.up, PollFire)] c2)))
        = reach_count (Closure.noteChannel c2).
Proof.
  split; [reflexivity|]. split; [reflexivity|].
  destruct (turn_clears_forward playerTank_demo "AI-0"
              (store_at 10 Direction.up) closure_forward5
              (turn_command Direction.left) eq_refl eq_refl)
    as (c1 & E & _ & _ & Hclear & Hconsume).
  pose proof (Hconsume (store_at 8 Direction.up) (tank_demo 0 8 Direction.up)
                Direction.left eq_refl eq_refl) as E2.
  exists c1, (Closure.set_forwardLength 0 (Closure.set_nextDirection None c1)).
  split; [exact E|].
  assert (Hne : TankRecord.direction (tank_demo 0 8 Direction.up)
                ≠ Direction.left) by discriminate.
  split; [exact (E2 Hne)|].
  destruct (Hclear [] _ _ _ (E2 Hne)) as (Hfl & _ & _ & Hreach).
  split; [exact Hfl|]. apply Hreach.
  repeat constructor; intros [].
Defined.

(** C4, witness: [fire], then the fire controller polls three times, the
    direction controller once in between. *)
Lemma fire_edge_triggered_witness :
  AICommand.type fire_command = "fire"
  ∧ outputs (run playerTank_demo "AI-0"
               [(store_at 0 Direction.up, Command fire_command);
                (store_at 0 Direction.up, PollFire);
                (store_at 0 Direction.up, PollDirection);
                (store_at 0 Direction.up, PollFire);
                (store_at 0 Direction.up, PollFire)]
               Closure.init)
    = [Handled; FireInput true; DirectionInput None; FireInput false;
       FireInput false]
  ∧ ∃ k,
      fire_inputs
        (outputs (run playerTank_demo "AI-0"
                    [(store_at 0 Direction.up, PollFire);
                     (store_at 0 Direction.up, PollDirection);
                     (store_at 0 Direction.up, PollFire);
                     (store_at 0 Direction.up, PollFire)]
                    (Closure.set_fire true Closure.init)))
      = true :: replicate k false.
Proof.
  split; [reflexivity|]. split; [vm_compute; reflexivity|].
  destruct (fire_edge_triggered playerTank_demo "AI-0"
              (store_at 0 Direction.up) Closure.init fire_command eq_refl)
    as (_ & _ & _ & _ & Hrun).
  destruct (Hrun [(store_at 0 Direction.up, PollFire);
                  (store_at 0 Direction.up, PollDirection);
                  (store_at 0 Direction.up, PollFire);
                  (store_at 0 Direction.up, PollFire)]) as [Hnil|Hk].
  - repeat constructor; intros [].
  - vm_compute in Hnil. discriminate Hnil.
  - exact Hk.
Defined.

(** C4, counterexample: two [fire] commands, then two polls of the fire
    controller: the answers are [true], [false]; two commands, one [true]
    answer. *)
Lemma fire_twice_counterexample :
  outputs (run playerTank_demo "AI-0"
             [(store_at 0 Direction.up, Command fire_command);
              (store_at 0 Direction.up, Command fire_command);
              (store_at 0 Direction.up, PollFire);
              (store_at 0 Direction.up, PollFire)]
             Closure.init)
  = [Handled; Handled; FireInput true; FireInput false]
  ∧ fire_commands
      [(store_at 0 Direction.up, Command fire_command);
       (store_at 0 Direction.up, Command fire_command);
       (store_at 0 Direction.up, PollFire);
       (store_at 0 Direction.up, PollFire)] = 2%nat
  ∧ count_true
      (fire_inputs
         (outputs (run playerTank_demo "AI-0"
                     [(store_at 0 Direction.up, Command fire_command);
                      (store_at 0 Direction.up, Command fire_command);
                      (store_at 0 Direction.up, PollFire);
                      (store_at 0 Direction.up, PollFire)]
                     Closure.init))) = 1%nat.
Proof. repeat split; vm_compute; reflexivity. Qed.

(** Two [fire] commands in a row raise the flag once. *)
Example fire_twice_run :
  outputs (run playerTank_demo "AI-0"
             [(store_at 0 Direction.up, Command fire_command);
              (store_at 0 Direction.up, Command fire_command);
              (store_at 0 Direction.up, PollFire);
              (store_at 0 Direction.up, PollFire)]
             Closure.init)
  = [Handled; Handled; FireInput true; FireInput false].
Proof. vm_compute. reflexivity. Qed.

(** C5, counterexample: the tank is absent and the command is
    [query my-fire-info]; the handler reads [tank.tankId] of [null] and
    throws. *)
Lemma absent_tank_counterexample :
  playerTank_demo store_absent "AI-0" = None
  ∧ handleCommand playerTank_demo "AI-0" store_absent
      (query_command "my-fire-info") Closure.init
    = inl TypeError.
Proof. split; vm_compute; reflexivity. Qed.

(** C5, witness: with the tank absent, [forward 5] changes nothing and
    [query my-tank] reports the absent marker. *)
Lemma absent_tank_tolerated_witness :
  playerTank_demo store_absent "AI-0" = None
  ∧ handleCommand playerTank_demo "AI-0" store_absent (forward_command 5)
      Closure.init = inr (tt, Closure.init)
  ∧ handleCommand playerTank_demo "AI-0" store_absent
      (query_command "my-tank") Closure.init
    = inr (tt, Closure.put (query_result (my_tank_info None)) Closure.init)
  ∧ ∃ c', handleCommand playerTank_demo "AI-0" store_absent
            (turn_command Direction.down) Closure.init = inr (tt, c').
Proof.
  split; [reflexivity|].
  split.
  { apply (absent_tank_tolerated playerTank_demo "AI-0" store_absent
             Closure.init (forward_command 5) eq_refl). reflexivity. }
  split.
  { apply (absent_tank_tolerated playerTank_demo "AI-0" store_absent
             Closure.init (query_command "my-tank") eq_refl); reflexivity. }
  apply (absent_tank_tolerated playerTank_demo "AI-0" store_absent
           Closure.init (turn_command Direction.down) eq_refl).
  - right. right. left. reflexivity.
  - intros [Hty _]. discriminate Hty.
Defined.

(** C6, counterexample: [query] is a recognized command type, yet
    [query my-fire-info] with the tank absent is not handled: it throws. *)
Lemma recognized_command_counterexample :
  recognized (query_command "my-fire-info")
  ∧ handleCommand playerTank_demo "AI-0" store_absent
      (query_command "my-fire-info") Closure.init
    = inl TypeError
  ∧ thrown (run playerTank_demo "AI-0"
              [(store_absent, Command (query_command "my-fire-info"))]
              Closure.init)
    = Some TypeError.
Proof.
  split; [right; right; right; reflexivity|].
  split; vm_compute; reflexivity.
Qed.

(** C6, witness: a command of type [stop] throws [Error] and ends the run;
    [fire] is handled. *)
Lemma unrecognized_command_fatal_witness :
  ¬ recognized (AICommand.mk "stop" 0 None "")
  ∧ recognized fire_command
  ∧ handleCommand playerTank_demo "AI-0" (store_at 0 Direction.up)
      (AICommand.mk "stop" 0 None "") Closure.init = inl Error
  ∧ run playerTank_demo "AI-0"
      [(store_at 0 Direction.up, Command (AICommand.mk "stop" 0 None ""));
       (store_at 0 Direction.up, Command fire_command)] Closure.init
    = {| outputs := []; final := Closure.init; thrown := Some Error |}
  ∧ ∃ c', handleCommand playerTank_demo "AI-0" (store_at 0 Direction.up)
            fire_command Closure.init = inr (tt, c').
Proof.
  assert (Hun : ¬ recognized (AICommand.mk "stop" 0 None "")).
  { intros [H|[H|[H|H]]]; discriminate H. }
  assert (Hrec : recognized fire_command).
  { right. left. reflexivity. }
  split; [exact Hun|]. split; [exact Hrec|].
  destruct (unrecognized_command_fatal playerTank_demo "AI-0"
              (store_at 0 Direction.up) Closure.init
              (AICommand.mk "stop" 0 None "")) as [Hfatal _].
  destruct (Hfatal Hun) as [E Hrun].
  split; [exact E|]. split; [apply Hrun|].
  destruct (unrecognized_command_fatal playerTank_demo "AI-0"
              (store_at 0 Direction.up) Closure.init fire_command)
    as [_ Hok].
  destruct (Hok Hrec) as [_ Hhandled]. apply Hhandled.
  left. eexists. reflexivity.
Defined.

(** C9, counterexample: [forward 5] was taken at [y = 10]; the tank, facing
    up, now stands at [y = 5], and [up] is the pending direction.  The poll
    does not answer [turn], but it answers [null], not a forward input, and
    [forwardLength] is reset. *)
Lemma facing_turn_counterexample :
  final (run playerTank_demo "AI-0"
           [(store_at 10 Direction.up, Command (forward_command 5));
            (store_at 5 Direction.up, Command (turn_command Direction.up))]
           Closure.init)
  = Closure.set_nextDirection (Some Direction.up) closure_forward5
  ∧ playerTank_demo (store_at 5 Direction.up) "AI-0"
    = Some (tank_demo 0 5 Direction.up)
  ∧ (0 <? Closure.forwardLength
            (Closure.set_nextDirection (Some Direction.up) closure_forward5))%float
    = true
  ∧ getAIInput playerTank_demo "AI-0" (store_at 5 Direction.up)
      (Closure.set_nextDirection (Some Direction.up) closure_forward5)
    = inr (None, Closure.mk false (Some Direction.up) 0 10 [reach]).
Proof. repeat split; vm_compute; reflexivity. Qed.

(** C9, witness: the same closure polled with the tank at [y = 8]: the
    direction stays pending and the answer is [forward 3]. *)
Lemma facing_turn_stays_pending_witness :
  playerTank_demo (store_at 8 Direction.up) "AI-0"
  = Some (tank_demo 0 8 Direction.up)
  ∧ getAIInput playerTank_demo "AI-0" (store_at 8 Direction.up)
      (Closure.set_nextDirection (Some Direction.up) closure_forward5)
    = inr (Some (forward 3),
           Closure.set_nextDirection (Some Direction.up) closure_forward5).
Proof.
  split; [reflexivity|].
  destruct (facing_turn_stays_pending playerTank_demo "AI-0") as [Hstay _].
  destruct (Hstay (store_at 8 Direction.up)
              (Closure.set_nextDirection (Some Direction.up) closure_forward5)
              (tank_demo 0 8 Direction.up) Direction.up
              eq_refl eq_refl eq_refl)
    as (i & c' & E & _ & _ & Hfwd & _).
  destruct Hfwd as [-> ->]; [reflexivity | reflexivity |].
  exact E.
Defined.

(** C10, witness: [query status] changes nothing and the run goes on. *)
Lemma unknown_query_skipped_witness :
  AICommand.type (query_command "status") = "query"
  ∧ handleCommand playerTank_demo "AI-0" (store_at 0 Direction.up)
      (query_command "status") closure_forward5
    = inr (tt, closure_forward5)
  ∧ outputs (run playerTank_demo "AI-0"
               [(store_at 10 Direction.up, Command (query_command "status"));
                (store_at 9 Direction.up, PollDirection)] closure_forward5)
    = [Handled; DirectionInput (Some (forward 4))].
Proof.
  split; [reflexivity|].
  split.
  - apply (unknown_query_skipped playerTank_demo "AI-0"
             (store_at 0 Direction.up) closure_forward5
             (query_command "status") eq_refl); discriminate.
  - destruct (unknown_query_skipped playerTank_demo "AI-0"
                (store_at 10 Direction.up) closure_forward5
                (query_command "status") eq_refl) as [_ Hrun];
      try discriminate.
    rewrite Hrun. vm_compute. reflexivity.
Defined.

(** C7, witness: the tank of ["AI-0"] is killed with one enemy left: task
    [0] is cancelled and ["AI-1"] takes its place in the registry, with the
    new task [1]; with no enemy left the registry ends empty. *)
Lemma kill_replaces_session_witness :
  TankRecord.side (tank_demo 0 0 Direction.up) = "ai"
  ∧ Master.taskMap (master_demo ["basic"]) !! "AI-0" = Some 0%nat
  ∧ (∃ m',
       masterStep reducer_demo availableSpawnPosition_demo spawnTank_demo
         (tank_demo 0 0 Direction.up) kill_demo (master_demo ["basic"])
       = inr (tt, m')
       ∧ Master.taskMap m' = {[ "AI-1" := 1%nat ]}
       ∧ Master.spawned m' = ["AI-0"; "AI-1"]
       ∧ (0%nat ∈ Master.cancelled m'))
  ∧ masterStep reducer_demo availableSpawnPosition_demo spawnTank_demo
      (tank_demo 0 0 Direction.up) kill_demo (master_demo [])
    = inr (tt, Master.mk (Master.store (master_demo [])) ∅ 1 ["AI-0"]
                 ({[ 0%nat ]} ∪ ∅) []).
Proof.
  split; [reflexivity|]. split; [reflexivity|]. split.
  - destruct (kill_replaces_session reducer_demo availableSpawnPosition_demo
                spawnTank_demo (tank_demo 0 0 Direction.up)
                (master_demo ["basic"]) (tank_demo 0 0 Direction.up)
                (PlayerRecord.mk "AI-0" Infinity "ai") 0%nat
                eq_refl eq_refl)
      as (_ & _ & _ & _ & Hspawn).
    destruct Hspawn as (m' & E & Hsp & Hmap & _ & Hc & _); [discriminate|].
    exists m'. split; [exact E|]. split; [|split; [exact Hsp | exact Hc]].
    rewrite Hmap. cbn [master_demo Master.taskMap Master.spawned
                        Master.nextAIPlayerIndex PlayerRecord.playerName].
    rewrite delete_singleton_eq. reflexivity.
  - destruct (kill_replaces_session reducer_demo availableSpawnPosition_demo
                spawnTank_demo (tank_demo 0 0 Direction.up)
                (master_demo []) (tank_demo 0 0 Direction.up)
                (PlayerRecord.mk "AI-0" Infinity "ai") 0%nat
                eq_refl eq_refl)
      as (_ & _ & _ & Hnone & _).
    destruct (Hnone eq_refl) as (E & _ & _). unfold kill_demo. rewrite E.
    cbn [master_demo Master.taskMap Master.set_taskMap Master.cancel
         PlayerRecord.playerName Master.store Master.nextAIPlayerIndex
         Master.spawned Master.cancelled Master.dispatched].
    rewrite delete_singleton_eq. reflexivity.
Defined.

(** [LOAD_STAGE] on an empty registry with two enemies left spawns one
    session; [GAMEOVER] then cancels it and empties the registry. *)
Example load_stage_then_gameover :
  ∃ m1 m2,
    masterStep reducer_demo availableSpawnPosition_demo spawnTank_demo
      (tank_demo 0 0 Direction.up) LOAD_STAGE
      (Master.init (store_with None [] 0 ["basic"; "basic"]))
    = inr (tt, m1)
    ∧ Master.taskMap m1 = {[ "AI-0" := 0%nat ]}
    ∧ State.remainingEnemies (Master.store m1) = ["basic"]
    ∧ masterStep reducer_demo availableSpawnPosition_demo spawnTank_demo
        (tank_demo 0 0 Direction.up) GAMEOVER m1
      = inr (tt, m2)
    ∧ Master.taskMap m2 = ∅
    ∧ (0%nat ∈ Master.cancelled m2).
Proof.
  eexists _, _. split; [vm_compute; reflexivity|].
  split; [vm_compute; reflexivity|]. split; [reflexivity|].
  split; [vm_compute; reflexivity|].
  split; [vm_compute; reflexivity|].
  apply (bool_decide_unpack _). vm_compute. exact I.
Qed.

(** ** The further properties on concrete runs *)

(** X1, witness: [turn left], [turn down], then [turn right]: [right] is
    what stays pending. *)
Lemma last_turn_wins_witness :
  Forall (λ se : State.t * Event, is_turn_command se.2)
    [(store_at 0 Direction.up, Command (turn_command Direction.left));
     (store_at 0 Direction.up, Command (turn_command Direction.down))]
  ∧ AICommand.type (turn_command Direction.right) = "turn"
  ∧ final (run playerTank_demo "AI-0"
             [(store_at 0 Direction.up, Command (turn_command Direction.left));
              (store_at 0 Direction.up, Command (turn_command Direction.down));
              (store_at 0 Direction.up, Command (turn_command Direction.right))]
             closure_forward5)
    = Closure.set_nextDirection (Some Direction.right) closure_forward5.
Proof.
  assert (Hall : Forall (λ se : State.t * Event, is_turn_command se.2)
            [(store_at 0 Direction.up, Command (turn_command Direction.left));
             (store_at 0 Direction.up, Command (turn_command Direction.down))]).
  { repeat constructor. }
  split; [exact Hall|]. split; [reflexivity|].
  pose proof (last_turn_wins playerTank_demo "AI-0" _
                (store_at 0 Direction.up) (turn_command Direction.right)
                closure_forward5 Hall eq_refl) as H.
  simpl app in H. rewrite H. reflexivity.
Defined.

(** X2, witness: [forward 5] taken at [y = 10]; polls find the tank at
    [y = 12], then at [y = 2] and [y = 4], beyond the target: the answers
    are [forward 3], [forward (-3)], [forward (-1)] and nothing changes. *)
Lemma forward_pending_until_exact_witness :
  (0 <? Closure.forwardLength closure_forward5)%float = true
  ∧ final (run playerTank_demo "AI-0"
             [(store_at 12 Direction.up, PollDirection);
              (store_at 2 Direction.up, PollDirection);
              (store_at 4 Direction.up, PollDirection)] closure_forward5)
    = closure_forward5
  ∧ outputs (run playerTank_demo "AI-0"
               [(store_at 12 Direction.up, PollDirection);
                (store_at 2 Direction.up, PollDirection);
                (store_at 4 Direction.up, PollDirection)] closure_forward5)
    = [DirectionInput (Some (forward 3));
       DirectionInput (Some (forward (-3)));
       DirectionInput (Some (forward (-1)))].
Proof.
  split; [reflexivity|].
  assert (Hev : ∀ y, (abs (y - 10) =? 5)%float = false →
            (store_at y Direction.up, PollDirection).2 = PollDirection
            ∧ ∃ tank,
                playerTank_demo (store_at y Direction.up, PollDirection).1
                  "AI-0" = Some tank
                ∧ ¬ turn_pending tank closure_forward5
                ∧ (movedLength tank closure_forward5
                   =? Closure.forwardLength closure_forward5)%float = false).
  { intros y Hy. split; [reflexivity|].
    exists (tank_demo 0 y Direction.up). split; [reflexivity|].
    split; [intros []|exact Hy]. }
  destruct (forward_pending_until_exact playerTank_demo "AI-0"
              [(store_at 12 Direction.up, PollDirection);
               (store_at 2 Direction.up, PollDirection);
               (store_at 4 Direction.up, PollDirection)]
              closure_forward5 eq_refl) as (Hfin & _ & _).
  { repeat constructor; apply Hev; reflexivity. }
  split; [exact Hfin | vm_compute; reflexivity].
Defined.

(** X3, witness: the poll at [y = 7] answers [forward 2]. *)
Lemma forward_input_bounds_witness :
  getAIInput playerTank_demo "AI-0" (store_at 7 Direction.up) closure_forward5
  = inr (Some (forward 2), closure_forward5)
  ∧ ∃ tank,
      playerTank_demo (store_at 7 Direction.up) "AI-0" = Some tank
      ∧ (movedLength tank closure_forward5
         =? Closure.forwardLength closure_forward5)%float = false
      ∧ 2%float
        = (Closure.forwardLength closure_forward5
           - movedLength tank closure_forward5)%float.
Proof.
  split; [reflexivity|].
  destruct (forward_input_bounds playerTank_demo "AI-0"
              (store_at 7 Direction.up) closure_forward5 2 closure_forward5
              eq_refl) as (_ & _ & tank & Ht & _ & Hmv & Hmax).
  exists tank. split; [exact Ht|]. split; [exact Hmv | exact Hmax].
Defined.

(** X4, witness: the poll at [y = 5] puts [reach]. *)
Lemma poll_puts_only_reach_witness :
  getAIInput playerTank_demo "AI-0" (store_at 5 Direction.up) closure_forward5
  = inr (None, Closure.mk false None 0 10 [reach])
  ∧ ∃ tank,
      playerTank_demo (store_at 5 Direction.up) "AI-0" = Some tank
      ∧ (movedLength tank closure_forward5
         =? Closure.forwardLength closure_forward5)%float = true.
Proof.
  split; [reflexivity|].
  destruct (poll_puts_only_reach playerTank_demo "AI-0"
              (store_at 5 Direction.up) closure_forward5 None
              (Closure.mk false None 0 10 [reach]) eq_refl)
    as [[Hsame _]|(_ & _ & _ & tank & Ht & _ & _ & Hmv)].
  - discriminate Hsame.
  - exists tank. split; [exact Ht | exact Hmv].
Defined.

(** X5, witness: [forward 0] starts nothing. *)
Lemma nonpositive_forward_is_idle_witness :
  AICommand.type (forward_command 0) = "forward"
  ∧ (0 <? AICommand.forwardLength (forward_command 0))%float = false
  ∧ playerTank_demo (store_at 10 Direction.up) "AI-0"
    = Some (tank_demo 0 10 Direction.up)
  ∧ ∃ c1,
      handleCommand playerTank_demo "AI-0" (store_at 10 Direction.up)
        (forward_command 0) Closure.init = inr (tt, c1)
      ∧ reach_count
          (Closure.noteChannel
             (final (run playerTank_demo "AI-0"
                       [(store_at 10 Direction.up, PollDirection);
                        (store_at 9 Direction.up, PollDirection)] c1)))
        = 0%nat.
Proof.
  split; [reflexivity|]. split; [reflexivity|]. split; [reflexivity|].
  destruct (nonpositive_forward_is_idle playerTank_demo "AI-0"
              (store_at 10 Direction.up) Closure.init (forward_command 0)
              (tank_demo 0 10 Direction.up) eq_refl)
    as (c1 & E & Hrun); [reflexivity | reflexivity |].
  exists c1. split; [exact E|].
  destruct (Hrun [(store_at 10 Direction.up, PollDirection);
                  (store_at 9 Direction.up, PollDirection)]) as [Hreach _].
  { repeat constructor; intros []. }
  exact Hreach.
Defined.

(** [forward 5] twice, the second after the first was reached, a third
    still in progress: two [reach] notes at most. *)
Example reach_budget_run :
  let r := run playerTank_demo "AI-0"
             [(store_at 10 Direction.up, Command (forward_command 5));
              (store_at 5 Direction.up, PollDirection);
              (store_at 5 Direction.up, Command (forward_command 5));
              (store_at 0 Direction.up, PollDirection);
              (store_at 0 Direction.up, Command (forward_command 5))]
             Closure.init in
  Closure.noteChannel (final r) = [reach; reach]
  ∧ Closure.forwardLength (final r) = 5%float.
Proof. vm_compute. split; reflexivity. Qed.

(** X10, witness: the tank's bullet [0] and another tank's bullet [1]. *)
Lemma bullet_complete_iff_own_bullet_witness :
  notifyWhenBulletComplete playerTank_demo "AI-0" (store_at 0 Direction.up)
    {[ 7%nat := BulletRecord.mk 7 0 ]} Closure.init
  = inr (tt, Closure.put bullet_complete Closure.init)
  ∧ notifyWhenBulletComplete playerTank_demo "AI-0" (store_at 0 Direction.up)
      {[ 8%nat := BulletRecord.mk 8 1 ]} Closure.init
    = inr (tt, Closure.init).
Proof.
  split.
  - apply (bullet_complete_iff_own_bullet playerTank_demo "AI-0").
    exists (tank_demo 0 0 Direction.up), 7%nat, (BulletRecord.mk 7 0).
    repeat split.
  - apply (bullet_complete_iff_own_bullet playerTank_demo "AI-0").
    intros (tank & id & b & Ht & Hl & Hb).
    injection Ht as <-.
    apply lookup_singleton_Some in Hl as [_ <-]. discriminate Hb.
Defined.

(** X11, witness: polls and a [fire] command, no [turn] command. *)
Lemma no_turn_without_command_witness :
  Closure.nextDirection closure_forward5 = None
  ∧ Forall (λ o, ∀ d, o ≠ DirectionInput (Some (turn d)))
      (outputs (run playerTank_demo "AI-0"
                  [(store_at 10 Direction.up, PollDirection);
                   (store_at 10 Direction.left, Command fire_command);
                   (store_at 8 Direction.left, PollDirection)]
                  closure_forward5)).
Proof.
  split; [reflexivity|].
  apply (no_turn_without_command playerTank_demo "AI-0"); [reflexivity|].
  repeat constructor; simpl; try tauto. discriminate.
Defined.

(** X12, witness: [query my-tank] with a forward in progress. *)
Lemma query_only_reads_witness :
  AICommand.type (query_command "my-tank") = "query"
  ∧ ∃ c',
      handleCommand playerTank_demo "AI-0" (store_at 8 Direction.up)
        (query_command "my-tank") closure_forward5 = inr (tt, c')
      ∧ Closure.forwardLength c' = 5%float
      ∧ Closure.startPos c' = 10%float.
Proof.
  split; [reflexivity|].
  pose proof (query_only_reads playerTank_demo "AI-0" (store_at 8 Direction.up)
                (query_command "my-tank") closure_forward5 eq_refl) as H.
  destruct (handleCommand playerTank_demo "AI-0" (store_at 8 Direction.up)
              (query_command "my-tank") closure_forward5) as [err|[[] c']].
  - destruct H as (_ & Hq & _). discriminate Hq.
  - exists c'. destruct H as (_ & _ & Hfl & Hsp & _).
    split; [reflexivity|]. split; [exact Hfl | exact Hsp].
Defined.

Lemma master_init_wf s : registry_wf (Master.init s).
Proof.
  split; [reflexivity|]. split; [|split]; simpl.
  - intros name task Hl. rewrite lookup_empty in Hl. discriminate Hl.
  - intros task name Hl. rewrite lookup_nil in Hl. discriminate Hl.
  - intros task Hin. apply not_elem_of_empty in Hin. contradiction.
Qed.

Lemma master_demo_wf pool : registry_wf (master_demo pool).
Proof.
  split; [reflexivity|]. split; [|split]; simpl.
  - intros name task Hl. apply lookup_singleton_Some in Hl as [<- <-].
    split; [reflexivity | apply not_elem_of_empty].
  - intros [|task] name Hl; [|destruct task; discriminate Hl].
    injection Hl as <-. left. apply lookup_singleton_eq.
  - intros task Hin. apply not_elem_of_empty in Hin. contradiction.
Qed.

(** X13, witness: a stage is loaded with two enemies left, the AI is
    killed, the game ends. *)
Lemma registry_wf_invariant_witness :
  registry_wf (Master.init (store_with None [] 0 ["basic"; "armor"]))
  ∧ registry_wf
      (master_final
         (masterRun reducer_demo availableSpawnPosition_demo spawnTank_demo
            (tank_demo 0 0 Direction.up)
            [(store_with None [] 0 ["basic"; "armor"], LOAD_STAGE);
             (store_with None [] 0 ["armor"], kill_demo);
             (store_with None [] 0 [], GAMEOVER)]
            (Master.init (store_with None [] 0 ["basic"; "armor"])))).
Proof.
  split; [apply master_init_wf|].
  apply (registry_wf_invariant reducer_demo availableSpawnPosition_demo
           spawnTank_demo (tank_demo 0 0 Direction.up)).
  apply master_init_wf.
Defined.

(** The same run, step by step: ["AI-0"] is spawned as task [0], killed
    and replaced by ["AI-1"] as task [1], and both tasks end cancelled. *)
Example master_run :
  let r := masterRun reducer_demo availableSpawnPosition_demo spawnTank_demo
             (tank_demo 0 0 Direction.up)
             [(store_with None [] 0 ["basic"; "armor"], LOAD_STAGE);
              (store_with None [] 0 ["armor"], kill_demo);
              (store_with None [] 0 [], GAMEOVER)]
             (Master.init (store_with None [] 0 ["basic"; "armor"])) in
  master_thrown r = None
  ∧ Master.spawned (master_final r) = ["AI-0"; "AI-1"]
  ∧ Master.taskMap (master_final r) = ∅
  ∧ Master.nextAIPlayerIndex (master_final r) = 2%nat
  ∧ Master.cancelled (master_final r) = {[ 0%nat; 1%nat ]}.
Proof. vm_compute. repeat split. Qed.

(** X14, witness: ["AI-0"] is killed with one enemy left. *)
Lemma kill_keeps_population_witness :
  registry_wf (master_demo ["basic"])
  ∧ TankRecord.side (tank_demo 0 0 Direction.up) = "ai"
  ∧ Master.taskMap (master_demo ["basic"]) !! "AI-0" = Some 0%nat
  ∧ State.remainingEnemies (Master.store (master_demo ["basic"])) ≠ []
  ∧ ∃ m',
      masterStep reducer_demo availableSpawnPosition_demo spawnTank_demo
        (tank_demo 0 0 Direction.up) kill_demo (master_demo ["basic"])
      = inr (tt, m')
      ∧ size (Master.taskMap m') = 1%nat
      ∧ Master.taskMap m' !! "AI-1" = Some 1%nat.
Proof.
  split; [apply master_demo_wf|]. split; [reflexivity|].
  split; [reflexivity|]. split; [discriminate|].
  destruct (kill_keeps_population reducer_demo availableSpawnPosition_demo
              spawnTank_demo (tank_demo 0 0 Direction.up)
              (master_demo ["basic"]) (tank_demo 0 0 Direction.up)
              (PlayerRecord.mk "AI-0" Infinity "ai") 0%nat
              (master_demo_wf ["basic"]) eq_refl eq_refl)
    as (m' & E & Hsize & _ & _ & _ & Hnew & _); [discriminate|].
  exists m'. split; [exact E|]. split; [|exact Hnew].
  rewrite Hsize. reflexivity.
Defined.

(** X15, witness: a second [LOAD_STAGE] with the first session still
    registered: two sessions. *)
Lemma load_stage_adds_session_witness :
  registry_wf (master_demo ["basic"])
  ∧ ∃ m',
      masterStep reducer_demo availableSpawnPosition_demo spawnTank_demo
        (tank_demo 0 0 Direction.up) LOAD_STAGE (master_demo ["basic"])
      = inr (tt, m')
      ∧ size (Master.taskMap m') = 2%nat
      ∧ Master.taskMap m' !! "AI-0" = Some 0%nat
      ∧ Master.taskMap m' !! "AI-1" = Some 1%nat.
Proof.
  split; [apply master_demo_wf|].
  destruct (load_stage_adds_session reducer_demo availableSpawnPosition_demo
              spawnTank_demo (tank_demo 0 0 Direction.up)
              (master_demo ["basic"]) (master_demo_wf ["basic"]))
    as [_ Hadd].
  destruct Hadd as (m' & E & Hsize & Hnew & Hold & _); [discriminate|].
  exists m'. split; [exact E|]. split; [rewrite Hsize; reflexivity|].
  split; [apply Hold; reflexivity | exact Hnew].
Defined.

(** X16, witness: the game ends, then the tank of ["AI-0"] is killed. *)
Lemma kill_unregistered_throws_witness :
  TankRecord.side (tank_demo 0 0 Direction.up) = "ai"
  ∧ master_thrown
      (masterRun reducer_demo availableSpawnPosition_demo spawnTank_demo
         (tank_demo 0 0 Direction.up)
         [(store_at 0 Direction.up, GAMEOVER);
          (store_at 0 Direction.up, kill_demo);
          (store_at 0 Direction.up, LOAD_STAGE)]
         (master_demo ["basic"]))
    = Some TypeError.
Proof.
  split; [reflexivity|].
  apply (kill_unregistered_throws reducer_demo availableSpawnPosition_demo
           spawnTank_demo (tank_demo 0 0 Direction.up)).
  reflexivity.
Defined.
